(** * ai-browser-agent: the tools, the task entry point and the agent loop

    A shallow embedding of [src/app.py].  The Python module keeps one global,
    [page]; the five tools read it and drive the browser through Playwright;
    [execute_task] launches a browser, stores a fresh page in the global, runs
    the LangChain agent executor and closes the browser in a [finally] block.

    Playwright and the language model are outside the program.  Their
    behaviour is a script of events, one per call into Playwright, that the
    state carries along: every statement below holds for every script. *)

From stdpp Require Import base strings list gmap.

Set Warnings "-register-all".
Open Scope string_scope.
Open Scope list_scope.
Open Scope nat_scope.

(** ** Python values *)

(** A Python [str] is a [string]; [len] is [String.length]. *)

(** [s[:n]] for a non-negative [n]. *)
Fixpoint slice_to (n : nat) (s : string) : string :=
  match n, s with
  | S n', String c s' => String c (slice_to n' s')
  | _, _ => ""
  end.

(** [needle in hay] on strings. *)
Fixpoint starts_with (p s : string) : bool :=
  match p, s with
  | "", _ => true
  | String a p', String b s' => bool_decide (a = b) && starts_with p' s'
  | String _ _, "" => false
  end.

Fixpoint contains (needle hay : string) : bool :=
  starts_with needle hay ||
  match hay with
  | "" => false
  | String _ hay' => contains needle hay'
  end.

(** The double quote character, for the selector the search tool fills. *)
Definition dquote : string := String (Ascii.ascii_of_nat 34) "".

(** The values a decoded JSON request body can hold ([request.json]). *)
Inductive json : Type :=
  | JNull
  | JBool (b : bool)
  | JNum (z : Z)
  | JStr (s : string)
  | JArr (l : list json)
  | JObj (l : list (string * json)).

(** Python truthiness, as [if not task] tests it. *)
Definition truthy (v : json) : bool :=
  match v with
  | JNull => false
  | JBool b => b
  | JNum z => negb (Z.eqb z 0)
  | JStr s => negb (bool_decide (s = ""))
  | JArr l => negb (bool_decide (l = []))
  | JObj l => match l with [] => false | _ => true end
  end.

(** ** The outside world *)

(** A browser is named by its index in the list of browsers launched so far;
    a page belongs to one browser ([execute_task] opens one context and one
    page per browser). *)
Record Page := { page_browser : nat }.

(** What the outside world does during one call into Playwright: the call
    may raise ([ev_raise] is [str(e)]), the browser may die while it runs,
    and a call that reads the page gets [ev_text]. *)
Record Event := {
  ev_raise : option string;
  ev_crash : bool;
  ev_text : string
}.

Definition quiet : Event :=
  {| ev_raise := None; ev_crash := false; ev_text := "" |}.

(** The calls a spy session records. *)
Inductive Op : Type :=
  | OpStart
  | OpLaunch
  | OpNewContext (b : nat)
  | OpNewPage (b : nat)
  | OpGoto (pg : Page) (url : string)
  | OpFill (pg : Page) (css_selector text : string)
  | OpPress (pg : Page) (key : string)
  | OpClick (pg : Page) (css_selector : string)
  | OpWaitLoad (pg : Page) (state : string)
  | OpInnerText (pg : Page) (css_selector : string)
  | OpClose (b : nat)
  | OpInvoke (task : json).

Record State := {
  page : option Page;          (* the module global [page]; [None] is Python's None *)
  browser : option nat;        (* the local [browser] of the running [execute_task];
                                  [None] when it is not in [locals()] *)
  browsers : list bool;        (* [is_connected()] of every browser launched so far *)
  script : list Event;         (* what the outside world does at the coming calls *)
  calls : list Op              (* the spy's record, oldest call first *)
}.

Definition set_page (p : option Page) (s : State) : State :=
  {| page := p; browser := browser s; browsers := browsers s;
     script := script s; calls := calls s |}.

Definition set_browser (b : option nat) (s : State) : State :=
  {| page := page s; browser := b; browsers := browsers s;
     script := script s; calls := calls s |}.

Definition set_browsers (bs : list bool) (s : State) : State :=
  {| page := page s; browser := browser s; browsers := bs;
     script := script s; calls := calls s |}.

Definition set_script (sc : list Event) (s : State) : State :=
  {| page := page s; browser := browser s; browsers := browsers s;
     script := sc; calls := calls s |}.

Definition record_call (o : Op) (s : State) : State :=
  {| page := page s; browser := browser s; browsers := browsers s;
     script := script s; calls := calls s ++ [o] |}.

(** ** Computations that may raise *)

Inductive res (A : Type) : Type :=
  | Ok (a : A)
  | Exc (msg : string).
Arguments Ok {A} a.
Arguments Exc {A} msg.

Definition M (A : Type) : Type := State → res A * State.

Global Instance M_ret : MRet M := λ A a s, (Ok a, s).

Global Instance M_bind : MBind M := λ A B f m s,
  match m s with
  | (Ok a, s') => f a s'
  | (Exc e, s') => (Exc e, s')
  end.

(** [try: body  except Exception as e: handler(str(e))] *)
Definition try_except {A} (body : M A) (handler : string → M A) : M A := λ s,
  match body s with
  | (Ok a, s') => (Ok a, s')
  | (Exc e, s') => handler e s'
  end.

(** [try: body  finally: fin]: [fin] runs on both ways out, then the value or
    the exception of [body] goes on (an exception of [fin] replaces it). *)
Definition try_finally {A} (body : M A) (fin : M unit) : M A := λ s,
  match body s with
  | (r, s') =>
      match fin s' with
      | (Ok _, s'') => (r, s'')
      | (Exc e, s'') => (Exc e, s'')
      end
  end.

Definition get_page : M (option Page) := λ s, (Ok (page s), s).
Definition assign_page (p : Page) : M unit := λ s, (Ok (), set_page (Some p) s).
Definition get_browser : M (option nat) := λ s, (Ok (browser s), s).
Definition assign_browser (b : nat) : M unit := λ s, (Ok (), set_browser (Some b) s).

(** ** Playwright *)

Definition next_event (s : State) : Event * State :=
  match script s with
  | [] => (quiet, s)
  | e :: rest => (e, set_script rest s)
  end.

Definition disconnect (b : nat) (s : State) : State :=
  set_browsers (<[b := false]> (browsers s)) s.

(** One call into Playwright on browser [b]: the spy records it, the outside
    world plays its next event. *)
Definition playwright (o : Op) (b : nat) : M string := λ s,
  let '(e, s1) := next_event (record_call o s) in
  let s2 := if ev_crash e then disconnect b s1 else s1 in
  match ev_raise e with
  | Some msg => (Exc msg, s2)
  | None => (Ok (ev_text e), s2)
  end.

(** [sync_playwright().__enter__()].  Leaving the [with] block stops the
    Playwright driver; by then the browser of the task, if one was launched,
    is no longer connected (the [finally] block has run), so leaving changes
    nothing in the state. *)
Definition sync_playwright : M unit := λ s,
  let '(e, s1) := next_event (record_call OpStart s) in
  match ev_raise e with
  | Some msg => (Exc msg, s1)
  | None => (Ok (), s1)
  end.

(** [p.chromium.launch(headless=False)]: a new browser, unless the launch
    raises. *)
Definition launch : M nat := λ s,
  let '(e, s1) := next_event (record_call OpLaunch s) in
  match ev_raise e with
  | Some msg => (Exc msg, s1)
  | None =>
      (Ok (length (browsers s1)),
       set_browsers (browsers s1 ++ [negb (ev_crash e)]) s1)
  end.

Definition new_context (b : nat) : M nat :=
  playwright (OpNewContext b) b ;; mret b.

Definition new_page (ctx : nat) : M Page :=
  playwright (OpNewPage ctx) ctx ;; mret {| page_browser := ctx |}.

Definition is_connected (b : nat) : M bool := λ s,
  (Ok (default false (browsers s !! b)), s).

(** [browser.close()] *)
Definition close (b : nat) : M unit := λ s,
  (Ok (), disconnect b (record_call (OpClose b) s)).

Definition goto (pg : Page) (url : string) : M unit :=
  playwright (OpGoto pg url) (page_browser pg) ;; mret ().

Definition fill (pg : Page) (css_selector text : string) : M unit :=
  playwright (OpFill pg css_selector text) (page_browser pg) ;; mret ().

Definition press (pg : Page) (key : string) : M unit :=
  playwright (OpPress pg key) (page_browser pg) ;; mret ().

Definition click (pg : Page) (css_selector : string) : M unit :=
  playwright (OpClick pg css_selector) (page_browser pg) ;; mret ().

Definition wait_for_load_state (pg : Page) (state : string) : M unit :=
  playwright (OpWaitLoad pg state) (page_browser pg) ;; mret ().

Definition inner_text (pg : Page) (css_selector : string) : M string :=
  playwright (OpInnerText pg css_selector) (page_browser pg).

(** ** The tools *)

Definition not_running : string := "Browser is not running.".

(** The statements inside each tool's [try]. *)
Definition google_search_try (pg : Page) (query : string) : M string :=
  goto pg "https://www.google.com" ;;
  fill pg ("textarea[name=" +:+ dquote +:+ "q" +:+ dquote +:+ "]") query ;;
  press pg "Enter" ;;
  mret ("Successfully searched for '" +:+ query +:+
        "'. The results are now on the screen.").

Definition google_search (query : string) : M string :=
  pg ← get_page;
  match pg with
  | None => mret not_running
  | Some pg =>
      try_except (google_search_try pg query)
        (λ e, mret ("Error during Google search: " +:+ e))
  end.

Definition navigate_to_url_try (pg : Page) (url : string) : M string :=
  goto pg url ;;
  mret ("Successfully navigated to " +:+ url +:+ ".").

Definition navigate_to_url (url : string) : M string :=
  pg ← get_page;
  match pg with
  | None => mret not_running
  | Some pg =>
      try_except (navigate_to_url_try pg url)
        (λ e, mret ("Error navigating to url: " +:+ e))
  end.

Definition type_text_try (pg : Page) (css_selector text : string) : M string :=
  fill pg css_selector text ;;
  mret ("Successfully typed '" +:+ text +:+ "' into the element.").

Definition type_text (css_selector text : string) : M string :=
  pg ← get_page;
  match pg with
  | None => mret not_running
  | Some pg =>
      try_except (type_text_try pg css_selector text)
        (λ e, mret ("Error typing text: " +:+ e))
  end.

Definition click_element_try (pg : Page) (css_selector : string) : M string :=
  click pg css_selector ;;
  mret "Successfully clicked the element.".

Definition click_element (css_selector : string) : M string :=
  pg ← get_page;
  match pg with
  | None => mret not_running
  | Some pg =>
      try_except (click_element_try pg css_selector)
        (λ e, mret ("Error clicking element: " +:+ e))
  end.

Definition read_current_page_content_try (pg : Page) : M string :=
  wait_for_load_state pg "networkidle" ;;
  content ← inner_text pg "body";
  mret (slice_to 4000 content).

Definition read_current_page_content : M string :=
  pg ← get_page;
  match pg with
  | None => mret not_running
  | Some pg =>
      try_except (read_current_page_content_try pg)
        (λ e, mret ("Could not get page content. Error: " +:+ e))
  end.

(** The toolbox [tools], as calls with their arguments bound. *)
Inductive ToolCall : Type :=
  | GoogleSearch (query : string)
  | NavigateToUrl (url : string)
  | TypeText (css_selector text : string)
  | ClickElement (css_selector : string)
  | ReadCurrentPageContent.

Definition run_tool (c : ToolCall) : M string :=
  match c with
  | GoogleSearch query => google_search query
  | NavigateToUrl url => navigate_to_url url
  | TypeText css_selector text => type_text css_selector text
  | ClickElement css_selector => click_element css_selector
  | ReadCurrentPageContent => read_current_page_content
  end.

(** The statements inside the tool's [try], and the text its [except] puts
    in front of [str(e)]. *)
Definition tool_try (c : ToolCall) (pg : Page) : M string :=
  match c with
  | GoogleSearch query => google_search_try pg query
  | NavigateToUrl url => navigate_to_url_try pg url
  | TypeText css_selector text => type_text_try pg css_selector text
  | ClickElement css_selector => click_element_try pg css_selector
  | ReadCurrentPageContent => read_current_page_content_try pg
  end.

Definition error_prefix (c : ToolCall) : string :=
  match c with
  | GoogleSearch _ => "Error during Google search: "
  | NavigateToUrl _ => "Error navigating to url: "
  | TypeText _ _ => "Error typing text: "
  | ClickElement _ => "Error clicking element: "
  | ReadCurrentPageContent => "Could not get page content. Error: "
  end.

(** ** The agent executor *)

(** [AgentExecutor] is LangChain's.  All the program gives it is the language
    model and the toolbox, so a run of [agent_executor.invoke] is a finite
    strategy: it stops with a result, or it calls a tool and goes on from the
    observation the tool returns. *)
Inductive Agent (R : Type) : Type :=
  | Stop (r : R)
  | Call (c : ToolCall) (k : string → Agent R).
Arguments Stop {R} r.
Arguments Call {R} c k.

Fixpoint run_agent {R} (a : Agent R) : M R :=
  match a with
  | Stop r => mret r
  | Call c k => obs ← run_tool c; run_agent (k obs)
  end.

(** ** The HTTP entry point *)

(** [jsonify({"result": s})] and [jsonify({"error": s})], with the status. *)
Inductive Body : Type :=
  | BResult (s : string)
  | BError (s : string).

Record Response := { body : Body; status : nat }.

(** A Python call: the callee starts with no locals, and its locals are gone
    when it returns. *)
Definition call_frame {A} (f : M A) : M A := λ s,
  let '(r, s') := f (set_browser None s) in
  (r, set_browser (browser s) s').

Section TaskRunner.

(** What [agent_executor.invoke] does with a task: it returns
    [result['output']] ([Ok]) or raises ([Exc]). *)
Variable agent_executor : json → Agent (res string).

Definition invoke (task : json) : M string := λ s,
  match run_agent (agent_executor task) (record_call (OpInvoke task) s) with
  | (Ok (Ok output), s') => (Ok output, s')
  | (Ok (Exc msg), s') => (Exc msg, s')
  | (Exc msg, s') => (Exc msg, s')
  end.

(** The [finally] block of [execute_task]. *)
Definition close_browser : M unit :=
  b ← get_browser;
  match b with
  | Some b => c ← is_connected b; if (c : bool) then close b else mret ()
  | None => mret ()
  end.

(** The [try] block of [execute_task] with its [except].  The [print] calls
    and [time.sleep(5)] change nothing in the state and are left out. *)
Definition run_task (task : json) : M Response :=
  try_except
    (b ← launch; assign_browser b ;;
     context ← new_context b;
     pg ← new_page context; assign_page pg ;;
     result ← invoke task;
     mret {| body := BResult result; status := 200 |})
    (λ e, mret {| body := BError e; status := 500 |}).

(** [data] is [request.json], a JSON object; [data.get('task')] is None
    when the key is missing. *)
Definition execute_task (data : gmap string json) : M Response :=
  call_frame
    (let task := default JNull (data !! "task") in
     if negb (truthy task)
     then mret {| body := BError "No task provided"; status := 400 |}
     else sync_playwright ;; try_finally (run_task task) close_browser).

End TaskRunner.

(** ** The agent loop *)

(** Modelled from the spec: the loop inside LangChain's [AgentExecutor] and
    its output parser are not part of [src/app.py], which only builds the
    executor (with [handle_parsing_errors=True] and no iteration limit of its
    own) and calls [invoke].  The definitions of this part follow sections
    4.1, 4.2, 4.5 and 7 of the specification: the decisions, the history, one
    Thinking/Acting/Observing cycle, and the bounded loop. *)

Fixpoint assoc {V} (k : string) (l : list (string * V)) : option V :=
  match l with
  | [] => None
  | (k', v) :: l' => if bool_decide (k = k') then Some v else assoc k l'
  end.

(** Modelled from the spec: the outcome of the ActionParser on the oracle's
    text, [Act{name, input}], [Finish{answer}] or [ParseFailure{reason}]. *)
Inductive Parsed : Type :=
  | Act (name : string) (input : json)
  | Finish (answer : string)
  | ParseFailure (reason : string).

(** Modelled from the spec: a HistoryStep records the action taken, its input
    and the resulting observation. *)
Record HistoryStep := {
  action : string;
  action_input : json;
  observation : string
}.

(** Modelled from the spec: the input of a tool is zero or more named string
    fields; a tool with one field also takes the bare string. *)
Definition str_arg (field : string) (input : json) : option string :=
  match input with
  | JStr s => Some s
  | JObj l => match assoc field l with Some (JStr s) => Some s | _ => None end
  | _ => None
  end.

Definition str_field (field : string) (input : json) : option string :=
  match input with
  | JObj l => match assoc field l with Some (JStr s) => Some s | _ => None end
  | _ => None
  end.

(** The fixed tool set: the names are those of the functions in [tools]. *)
Definition toolbox : list (string * (json → option ToolCall)) :=
  [ ("google_search", λ i, GoogleSearch <$> str_arg "query" i);
    ("navigate_to_url", λ i, NavigateToUrl <$> str_arg "url" i);
    ("type_text", λ i,
       match str_field "css_selector" i, str_field "text" i with
       | Some sel, Some text => Some (TypeText sel text)
       | _, _ => None
       end);
    ("click_element", λ i, ClickElement <$> str_arg "css_selector" i);
    ("read_current_page_content", λ _, Some ReadCurrentPageContent) ].

Definition tool_names : list string := fst <$> toolbox.

(** Modelled from the spec: the observations the loop writes itself. *)
Definition invalid_action (name : string) : string :=
  "Invalid action '" +:+ name +:+ "': the action must be one of " +:+
  "google_search, navigate_to_url, type_text, click_element, " +:+
  "read_current_page_content.".

Definition invalid_input (name : string) : string :=
  "Invalid input for the action '" +:+ name +:+ "'.".

Definition corrective : string :=
  "Invalid response. Respond with a JSON object with a single `action` key " +:+
  "and a single `action_input` key.".

(** Modelled from the spec: the step the loop records for an answer that
    could not be parsed. *)
Definition corrective_step (raw : string) : HistoryStep :=
  {| action := ""; action_input := JStr raw; observation := corrective |}.

(** Modelled from the spec: the terminal states of the loop. *)
Inductive LoopError : Type :=
  | IterationLimitExceeded
  | UnparseableOutput.

Inductive Outcome : Type :=
  | Done (answer : string)
  | Failed (e : LoopError).

Definition describe (e : LoopError) : string :=
  match e with
  | IterationLimitExceeded => "iteration limit exceeded"
  | UnparseableOutput => "unparseable output"
  end.

(** Modelled from the spec: where one pass through Thinking, Acting and
    Observing leaves the loop: in a terminal state, back in Thinking with a
    longer history and a count of consecutive parse failures, or at a tool,
    from whose observation it goes back to Thinking. *)
Inductive Cycle : Type :=
  | Finished (r : Outcome)
  | Continue (h : list HistoryStep) (fails : nat)
  | Invoke (c : ToolCall) (k : string → list HistoryStep).


Section AgentLoop.

(** The oracle answers a prompt made of the task and the history; the
    parser decodes its answer; the two bounds are the loop's. *)
Variable oracle : json → list HistoryStep → string.
Variable parse : string → Parsed.
Variable max_iterations : nat.
Variable max_parse_retries : nat.

(** Modelled from the spec: one cycle from Thinking, with history [h] and
    [fails] parse failures in a row so far. *)
Definition cycle (task : json) (h : list HistoryStep) (fails : nat) : Cycle :=
  let raw := oracle task h in
  match parse raw with
  | Finish answer => Finished (Done answer)
  | Act name input =>
      let step obs :=
        {| action := name; action_input := input; observation := obs |} in
      match assoc name toolbox with
      | None => Continue (h ++ [step (invalid_action name)]) 0
      | Some bind =>
          match bind input with
          | None => Continue (h ++ [step (invalid_input name)]) 0
          | Some c => Invoke c (λ obs, h ++ [step obs])
          end
      end
  | ParseFailure _ => Continue (h ++ [corrective_step raw]) (S fails)
  end.

(** Modelled from the spec: the loop in Thinking with [left] iterations of
    its budget left.  More than [max_parse_retries] parse failures in a row
    end it in Failed(unparseable-output), an empty budget in
    Failed(iteration-limit-exceeded). *)
Fixpoint agent_loop (task : json) (left : nat) (h : list HistoryStep)
    (fails : nat) : Agent (Outcome * list HistoryStep) :=
  if bool_decide (max_parse_retries < fails)
  then Stop (Failed UnparseableOutput, h)
  else
    match left with
    | 0 => Stop (Failed IterationLimitExceeded, h)
    | S left' =>
        match cycle task h fails with
        | Finished r => Stop (r, h)
        | Continue h' fails' => agent_loop task left' h' fails'
        | Invoke c k => Call c (λ obs, agent_loop task left' (k obs) 0)
        end
    end.

(** How the executor hands a run that ended in Failed(error) to its caller.
    [agent_executor.invoke] has two ways only, and [execute_task] tells only
    these two apart: it returns, and [execute_task] reads [result['output']],
    or it raises.  Which one the executor takes for a failed run is not in
    [src/app.py]; it is left open here. *)
Variable hand_over : LoopError → res string.



End AgentLoop.

(** ** What the statements below talk about *)

(** How often the spy saw [close()] on browser [b]. *)
Fixpoint close_calls (b : nat) (l : list Op) : nat :=
  match l with
  | [] => 0
  | OpClose b' :: l' => (if bool_decide (b = b') then 1 else 0) + close_calls b l'
  | _ :: l' => close_calls b l'
  end.

(** No browser dies in the events to come. *)
Definition calm (sc : list Event) : bool :=
  forallb (λ e, negb (ev_crash e)) sc.

(** The server right after the module is loaded: [page = None], no browser
    launched yet, and the outside world about to play [sc]. *)
Definition boot (sc : list Event) : State :=
  {| page := None; browser := None; browsers := []; script := sc; calls := [] |}.

(** The requests of [reqs] handled one after the other; each comes with what
    the executor does while it is served. *)
Fixpoint serve (reqs : list ((json → Agent (res string)) * gmap string json))
    (s : State) : State :=
  match reqs with
  | [] => s
  | (agent_executor, data) :: reqs' =>
      serve reqs' (execute_task agent_executor data s).2
  end.

(** Between two requests: the page the global refers to, if any, is a page of
    a browser that is no longer connected. *)
Definition stale (s : State) : Prop :=
  ∀ pg, page s = Some pg → browsers s !! page_browser pg = Some false.

(** What code that only calls into Playwright leaves as it is.  [np] is the
    page the code may store in the global ([None]: it stores none). *)
Record evolves (np : option Page) (s s' : State) : Prop := {
  evo_page : page s' = page s ∨ (is_Some np ∧ page s' = np);
  evo_local : browser s' = browser s;
  evo_length : length (browsers s') = length (browsers s);
  evo_closed : ∀ i, browsers s !! i = Some false → browsers s' !! i = Some false;
  evo_closes : ∀ b, close_calls b (calls s') = close_calls b (calls s);
  evo_calls : length (calls s) ≤ length (calls s');
  evo_calm : calm (script s) = true →
             browsers s' = browsers s ∧ calm (script s') = true
}.

Definition preserves {A} (R : State → State → Prop) (m : M A) : Prop :=
  ∀ s r s', m s = (r, s') → R s s'.

(** [m] never raises. *)
Definition total {A} (m : M A) : Prop :=
  ∀ s, ∃ a s', m s = (Ok a, s').

(** ** Traces *)

(** The event the outside world plays at the [n]-th call from now; when the
    script is over every call returns quietly. *)
Definition event_at (sc : list Event) (n : nat) : Event :=
  default quiet (sc !! n).

(** The calls in the [try] block of each tool, in the order of the source,
    on the page [pg]. *)
Definition tool_ops (c : ToolCall) (pg : Page) : list Op :=
  match c with
  | GoogleSearch query =>
      [ OpGoto pg "https://www.google.com";
        OpFill pg ("textarea[name=" +:+ dquote +:+ "q" +:+ dquote +:+ "]") query;
        OpPress pg "Enter" ]
  | NavigateToUrl url => [ OpGoto pg url ]
  | TypeText css_selector text => [ OpFill pg css_selector text ]
  | ClickElement css_selector => [ OpClick pg css_selector ]
  | ReadCurrentPageContent =>
      [ OpWaitLoad pg "networkidle"; OpInnerText pg "body" ]
  end.

(** The text each tool returns when every call of its [try] block returned;
    [text] is what the page gave to the last call. *)
Definition tool_success (c : ToolCall) (text : string) : string :=
  match c with
  | GoogleSearch query =>
      "Successfully searched for '" +:+ query +:+
      "'. The results are now on the screen."
  | NavigateToUrl url => "Successfully navigated to " +:+ url +:+ "."
  | TypeText _ text' => "Successfully typed '" +:+ text' +:+ "' into the element."
  | ClickElement _ => "Successfully clicked the element."
  | ReadCurrentPageContent => slice_to 4000 text
  end.

(** The browser a recorded call acts on, if it acts on one. *)
Definition op_browser (o : Op) : option nat :=
  match o with
  | OpStart | OpLaunch | OpInvoke _ => None
  | OpNewContext b | OpNewPage b | OpClose b => Some b
  | OpGoto pg _ | OpFill pg _ _ | OpPress pg _ | OpClick pg _
  | OpWaitLoad pg _ | OpInnerText pg _ => Some (page_browser pg)
  end.

(** A call on a page: what the tools do. *)
Definition page_op (o : Op) : bool :=
  match o with
  | OpGoto _ _ | OpFill _ _ _ | OpPress _ _ | OpClick _ _
  | OpWaitLoad _ _ | OpInnerText _ _ => true
  | _ => false
  end.

Definition on_page (pg : Page) (o : Op) : bool :=
  page_op o && bool_decide (op_browser o = Some (page_browser pg)).

(** A call that acts on no browser but [b]. *)
Definition on_browser (b : nat) (o : Op) : bool :=
  match op_browser o with
  | None => true
  | Some b' => bool_decide (b' = b)
  end.

(** From [s] to [s'] the spy recorded only calls that satisfy [P]. *)
Definition logged (P : Op → bool) (s s' : State) : Prop :=
  ∃ new, calls s' = calls s ++ new ∧ forallb P new = true.

(** While the global [page] is the page of browser [b], it stays so and only
    calls on [b] are recorded. *)
Definition confined (b : nat) (s s' : State) : Prop :=
  page s = Some {| page_browser := b |} →
  page s' = Some {| page_browser := b |} ∧ logged (on_browser b) s s'.

(** How often the spy saw [agent_executor.invoke]. *)
Fixpoint invoke_calls (l : list Op) : nat :=
  match l with
  | [] => 0
  | OpInvoke _ :: l' => S (invoke_calls l')
  | _ :: l' => invoke_calls l'
  end.

(** The calls [ops] made on browser [b] one after the other, as a [try]
    block makes them: the first that raises ends the sequence; the value is
    what the last call returned ([last] when there is no call). *)
Fixpoint run_ops (b : nat) (ops : list Op) (last : string) : M string :=
  match ops with
  | [] => mret last
  | o :: ops' => t ← playwright o b; run_ops b ops' t
  end.

(** The response [execute_task] makes of what [invoke] did: the output as
    a result with status 200, the message of an exception as an error with
    status 500. *)
Definition respond (out : res string) : Response :=
  match out with
  | Ok output => {| body := BResult output; status := 200 |}
  | Exc msg => {| body := BError msg; status := 500 |}
  end.

(** The state in which the [finally] block of [execute_task] starts: the
    one that entering [sync_playwright()] and the [try] block with its
    [except] leave behind. *)
Definition finally_entry (agent_executor : json → Agent (res string))
    (data : gmap string json) (s : State) : State :=
  ((sync_playwright ;;
    run_task agent_executor (default JNull (data !! "task")))
     (set_browser None s)).2.

(** From [s] to [s'] the outside world played the events [used], and if no
    browser died in them, the browsers are as they were. *)
Definition consumes (s s' : State) : Prop :=
  ∃ used, script s = used ++ script s' ∧
          (calm used = true → browsers s' = browsers s).

(** ** Concrete runs *)

(** [u * n] on strings. *)
Fixpoint repeat_str (n : nat) (u : string) : string :=
  match n with
  | 0 => ""
  | S n' => u +:+ repeat_str n' u
  end.

(** A call that returns normally, reading [text] from the page. *)
Definition returns (text : string) : Event :=
  {| ev_raise := None; ev_crash := false; ev_text := text |}.

(** A call that raises [msg] while the browser stays up. *)
Definition raises (msg : string) : Event :=
  {| ev_raise := Some msg; ev_crash := false; ev_text := "" |}.

(** A call during which the browser dies, and which raises [msg]. *)
Definition dies (msg : string) : Event :=
  {| ev_raise := Some msg; ev_crash := true; ev_text := "" |}.

(** An executor that clicks once and then gives its final answer. *)
Definition click_then_answer (task : json) : Agent (res string) :=
  Call (ClickElement "#buy") (λ _, Stop (Ok "done")).

(** An executor that gives its final answer at once. *)
Definition answer_at_once (task : json) : Agent (res string) :=
  Stop (Ok "done").

(** An oracle that gives the same answer whatever it is asked, a parser
    that reads every answer as a click, one that reads it as an action that
    does not exist, and one that cannot read it. *)
Definition same_answer (task : json) (h : list HistoryStep) : string :=
  "click the button".

Definition reads_click (raw : string) : Parsed :=
  Act "click_element" (JStr "#buy").

Definition reads_scroll (raw : string) : Parsed :=
  Act "scroll_down" (JStr "").

Definition reads_nothing (raw : string) : Parsed :=
  ParseFailure "no JSON object found".


(** A task is running on the page of browser 0 and the outside world is
    about to play [sc]. *)
Definition active (sc : list Event) : State :=
  {| page := Some {| page_browser := 0 |}; browser := Some 0;
     browsers := [true]; script := sc; calls := [] |}.

(** * Properties *)

(** ** Strings *)

Lemma slice_to_length n s :
  String.length (slice_to n s) = n `min` String.length s.
Proof.
  revert s. induction n as [|n IH]; intros [|c s]; simpl; auto.
Qed.

Lemma starts_with_app p s : starts_with p (p +:+ s) = true.
Proof.
  induction p as [|a p IH]; simpl; [done|].
  rewrite bool_decide_eq_true_2 by done. exact IH.
Qed.

Lemma contains_starts q s : starts_with q s = true → contains q s = true.
Proof. destruct s; simpl; intros ->; done. Qed.

Lemma contains_app a q b : contains q (a +:+ q +:+ b) = true.
Proof.
  induction a as [|c a IH].
  - change (contains q (q +:+ b) = true).
    apply contains_starts, starts_with_app.
  - simpl. rewrite IH. apply orb_true_r.
Qed.

Lemma close_calls_app b l1 l2 :
  close_calls b (l1 ++ l2) = close_calls b l1 + close_calls b l2.
Proof.
  induction l1 as [|o l1 IH]; simpl; [done|].
  destruct o; simpl; rewrite ?IH; lia.
Qed.

(** ** Sequencing and exceptions *)

Section Preserves.
Context (R : State → State → Prop) `{!PreOrder R}.

Lemma preserves_ret {A} (a : A) : preserves R (mret a).
Proof. intros s r s' [= <- <-]. reflexivity. Qed.

Lemma preserves_bind {A B} (m : M A) (f : A → M B) :
  preserves R m → (∀ a, preserves R (f a)) → preserves R (m ≫= f).
Proof.
  intros Hm Hf s r s'. unfold mbind, M_bind.
  destruct (m s) as [[a|e] s1] eqn:E.
  - intros H. etrans; [eapply Hm, E | eapply Hf, H].
  - intros [= <- <-]. eapply Hm, E.
Qed.

Lemma preserves_try_except {A} (m : M A) (h : string → M A) :
  preserves R m → (∀ e, preserves R (h e)) → preserves R (try_except m h).
Proof.
  intros Hm Hh s r s'. unfold try_except.
  destruct (m s) as [[a|e] s1] eqn:E.
  - intros [= <- <-]. eapply Hm, E.
  - intros H. etrans; [eapply Hm, E | eapply Hh, H].
Qed.

End Preserves.

Lemma total_ret {A} (a : A) : total (mret a).
Proof. intros s. by exists a, s. Qed.

Lemma total_try_except {A} (m : M A) (h : string → M A) :
  (∀ e, total (h e)) → total (try_except m h).
Proof.
  intros Hh s. unfold try_except.
  destruct (m s) as [[a|e] s1]; [by exists a, s1 | apply Hh].
Qed.

(** ** Calls into Playwright *)

Global Instance evolves_preorder np : PreOrder (evolves np).
Proof.
  split.
  - intros s. split; auto. 
  - intros s1 s2 s3 H12 H23. destruct H12, H23. split.
    + destruct evo_page1 as [->|[? ->]]; auto.
    + congruence.
    + congruence.
    + auto.
    + intros b. rewrite evo_closes1. auto.
    + lia.
    + intros Hc. destruct (evo_calm0 Hc) as [<- Hc'].
      exact (evo_calm1 Hc').
Qed.

Lemma next_event_frame s e s1 :
  next_event s = (e, s1) →
  page s1 = page s ∧ browser s1 = browser s ∧ browsers s1 = browsers s ∧
  calls s1 = calls s ∧
  (calm (script s) = true → ev_crash e = false ∧ calm (script s1) = true).
Proof.
  unfold next_event. destruct (script s) as [|e' rest] eqn:Es.
  - intros [= <- <-]. rewrite Es. split_and!; auto.
  - intros [= <- <-]. simpl. split_and!; auto.
    intros H. apply andb_true_iff in H as [H1 H2].
    split; [by apply negb_true_iff | done].
Qed.

Lemma disconnect_closed (b : nat) (bs : list bool) (i : nat) :
  bs !! i = Some false → <[b := false]> bs !! i = Some false.
Proof.
  intros Hi. destruct (decide (b = i)) as [->|Hne].
  - apply list_lookup_insert_eq. by eapply lookup_lt_Some.
  - by rewrite list_lookup_insert_ne.
Qed.

Lemma playwright_evolves np o b :
  (∀ b', close_calls b' [o] = 0) → preserves (evolves np) (playwright o b).
Proof.
  intros Ho s r s'. unfold playwright.
  destruct (next_event (record_call o s)) as [e s1] eqn:E.
  apply next_event_frame in E as (Hp & Hl & Hb & Hc & Hcalm).
  simpl in Hp, Hl, Hb, Hc, Hcalm.
  assert (Hs2 : evolves np s (if ev_crash e then disconnect b s1 else s1)).
  { destruct (ev_crash e) eqn:Ecr; split; simpl.
    - by left.
    - done.
    - by rewrite length_insert, Hb.
    - intros i. rewrite Hb. apply disconnect_closed.
    - intros b'. rewrite Hc, close_calls_app, Ho. lia.
    - rewrite Hc, length_app. simpl. lia.
    - intros H. destruct (Hcalm H). congruence.
    - by left.
    - done.
    - by rewrite Hb.
    - intros i. by rewrite Hb.
    - intros b'. rewrite Hc, close_calls_app, Ho. lia.
    - rewrite Hc, length_app. simpl. lia.
    - intros H. by destruct (Hcalm H). }
  destruct (ev_raise e); intros [= <- <-]; exact Hs2.
Qed.

Ltac evolve :=
  repeat first
    [ apply preserves_ret; apply _
    | apply preserves_bind; [apply _ | | intros ?]
    | apply preserves_try_except; [apply _ | | intros ?]
    | apply playwright_evolves; intros ?; reflexivity ].

(** ** The tools *)

Lemma tool_try_evolves np c pg : preserves (evolves np) (tool_try c pg).
Proof.
  destruct c; simpl;
    unfold google_search_try, navigate_to_url_try, type_text_try,
      click_element_try, read_current_page_content_try,
      goto, fill, press, click, wait_for_load_state, inner_text;
    evolve.
Qed.

Lemma run_tool_guarded c s :
  page s = None → run_tool c s = (Ok not_running, s).
Proof.
  intros H. destruct c; simpl;
    unfold google_search, navigate_to_url, type_text, click_element,
      read_current_page_content, mbind, M_bind, get_page;
    rewrite H; reflexivity.
Qed.

Lemma run_tool_active c pg s :
  page s = Some pg →
  run_tool c s =
    try_except (tool_try c pg) (λ e, mret (error_prefix c +:+ e)) s.
Proof.
  intros H. destruct c; simpl;
    unfold google_search, navigate_to_url, type_text, click_element,
      read_current_page_content, mbind at 1, M_bind at 1, get_page;
    rewrite H; reflexivity.
Qed.

Lemma run_tool_total c : total (run_tool c).
Proof.
  intros s. destruct (page s) as [pg|] eqn:Hp.
  - rewrite (run_tool_active c pg s Hp).
    apply total_try_except. intros e. apply total_ret.
  - rewrite (run_tool_guarded c s Hp). by eexists _, _.
Qed.

Lemma run_tool_evolves np c : preserves (evolves np) (run_tool c).
Proof.
  intros s r s'. destruct (page s) as [pg|] eqn:Hp.
  - rewrite (run_tool_active c pg s Hp).
    apply preserves_try_except; [apply _ | apply tool_try_evolves |].
    intros e. apply preserves_ret, _.
  - rewrite (run_tool_guarded c s Hp). intros [= <- <-]. reflexivity.
Qed.

(** ** Runs of the executor *)

Lemma run_agent_total {R} (a : Agent R) : total (run_agent a).
Proof.
  induction a as [r|c k IH]; simpl.
  - apply total_ret.
  - intros s. destruct (run_tool_total c s) as (obs & s1 & E).
    unfold mbind, M_bind. rewrite E. apply IH.
Qed.

Lemma run_agent_evolves {R} np (a : Agent R) :
  preserves (evolves np) (run_agent a).
Proof.
  induction a as [r|c k IH]; simpl.
  - apply preserves_ret, _.
  - apply preserves_bind; [apply _ | apply run_tool_evolves | exact IH].
Qed.

(** ** The entry point, step by step *)

Lemma record_call_evolves np o s :
  (∀ b', close_calls b' [o] = 0) → evolves np s (record_call o s).
Proof.
  intros Ho. split; simpl; auto.
  - intros b'. rewrite close_calls_app, Ho. lia.
  - rewrite length_app. lia.
Qed.

Lemma sync_playwright_evolves np : preserves (evolves np) sync_playwright.
Proof.
  intros s r s'. unfold sync_playwright.
  destruct (next_event (record_call OpStart s)) as [e s1] eqn:E.
  apply next_event_frame in E as (Hp & Hl & Hb & Hc & Hcalm).
  simpl in Hp, Hl, Hb, Hc, Hcalm.
  assert (evolves np s s1).
  { split; rewrite ?Hb; auto.
    - intros b'. rewrite Hc, close_calls_app. simpl. lia.
    - rewrite Hc, length_app. simpl. lia.
    - intros H. by destruct (Hcalm H). }
  destruct (ev_raise e); intros [= <- <-]; done.
Qed.

Lemma launch_spec s r s' :
  launch s = (r, s') →
  page s' = page s ∧ browser s' = browser s ∧
  (∀ b', close_calls b' (calls s') = close_calls b' (calls s)) ∧
  (calm (script s) = true → calm (script s') = true) ∧
  ((∃ msg, r = Exc msg ∧ browsers s' = browsers s) ∨
   (∃ up, r = Ok (length (browsers s)) ∧ browsers s' = browsers s ++ [up] ∧
          (calm (script s) = true → up = true))).
Proof.
  unfold launch.
  destruct (next_event (record_call OpLaunch s)) as [e s1] eqn:E.
  apply next_event_frame in E as (Hp & Hl & Hb & Hc & Hcalm).
  simpl in Hp, Hl, Hb, Hc, Hcalm.
  assert (Hcl : ∀ b', close_calls b' (calls s1) = close_calls b' (calls s)).
  { intros b'. rewrite Hc, close_calls_app. simpl. lia. }
  destruct (ev_raise e) as [msg|]; intros [= <- <-]; simpl.
  - split_and!; auto.
    + intros H. by destruct (Hcalm H).
    + left. eauto.
  - split_and!; auto.
    + intros H. by destruct (Hcalm H).
    + right. exists (negb (ev_crash e)). rewrite Hb. split_and!; auto.
      intros H. destruct (Hcalm H) as [-> _]. done.
Qed.

Lemma close_browser_none s : browser s = None → close_browser s = (Ok (), s).
Proof.
  intros H. unfold close_browser, mbind, M_bind, get_browser.
  by rewrite H.
Qed.

Lemma close_browser_spec s b :
  browser s = Some b → b < length (browsers s) →
  ∃ s', close_browser s = (Ok (), s') ∧
    page s' = page s ∧ browser s' = browser s ∧
    length (browsers s') = length (browsers s) ∧
    browsers s' !! b = Some false ∧
    (∀ i, browsers s !! i = Some false → browsers s' !! i = Some false) ∧
    (∀ b', b' ≠ b → close_calls b' (calls s') = close_calls b' (calls s)) ∧
    close_calls b (calls s') =
      close_calls b (calls s) + (if default false (browsers s !! b) then 1 else 0).
Proof.
  intros H Hlt. unfold close_browser, mbind, M_bind, get_browser.
  rewrite H. unfold is_connected.
  destruct (lookup_lt_is_Some_2 _ _ Hlt) as [up Hup]. rewrite Hup. simpl.
  destruct up.
  - eexists. split; [reflexivity|]. simpl. split_and!; auto.
    + by rewrite length_insert.
    + by apply list_lookup_insert_eq.
    + intros i. apply disconnect_closed.
    + intros b' Hne. rewrite close_calls_app. simpl.
      rewrite bool_decide_eq_false_2 by done. lia.
    + rewrite close_calls_app. simpl.
      rewrite bool_decide_eq_true_2 by done. lia.
  - eexists. split; [reflexivity|]. split_and!; auto; lia.
Qed.

Lemma new_context_spec np b s r s' :
  new_context b s = (r, s') → evolves np s s' ∧ (r = Ok b ∨ ∃ msg, r = Exc msg).
Proof.
  unfold new_context, mbind, M_bind.
  destruct (playwright (OpNewContext b) b s) as [[t|msg] s1] eqn:E;
    intros [= <- <-];
    (split; [refine (playwright_evolves np _ _ _ _ _ _ E); done | eauto]).
Qed.

Lemma new_page_spec np ctx s r s' :
  new_page ctx s = (r, s') →
  evolves np s s' ∧ (r = Ok {| page_browser := ctx |} ∨ ∃ msg, r = Exc msg).
Proof.
  unfold new_page, mbind, M_bind.
  destruct (playwright (OpNewPage ctx) ctx s) as [[t|msg] s1] eqn:E;
    intros [= <- <-];
    (split; [refine (playwright_evolves np _ _ _ _ _ _ E); done | eauto]).
Qed.

Lemma assign_page_evolves pg s : evolves (Some pg) s (set_page (Some pg) s).
Proof. split; simpl; eauto. Qed.

Section TaskRunnerFacts.

Variable agent_executor : json → Agent (res string).

Lemma invoke_evolves np task :
  preserves (evolves np) (invoke agent_executor task).
Proof.
  intros s r s'. unfold invoke.
  destruct (run_agent _ _) as [[[out|msg]|msg] s1] eqn:E;
    intros [= <- <-];
    (etrans; [apply (record_call_evolves np (OpInvoke task)); done
             | eapply run_agent_evolves, E]).
Qed.

(** What [invoke] returns is what the executor's run ended with. *)
Lemma invoke_returns task s out s' :
  invoke agent_executor task s = (Ok out, s') →
  run_agent (agent_executor task) (record_call (OpInvoke task) s)
    = (Ok (Ok out), s').
Proof.
  unfold invoke.
  destruct (run_agent _ _) as [[[o|msg]|msg] s1]; intros [= <- <-]; done.
Qed.

(** The part of the [try] block after [browser = ...launch()]. *)
Lemma session_evolves b task s r s' :
  (context ← new_context b;
   pg ← new_page context; assign_page pg ;;
   result ← invoke agent_executor task;
   mret {| body := BResult result; status := 200 |}) s = (r, s') →
  evolves (Some {| page_browser := b |}) s s'.
Proof.
  unfold mbind at 1, M_bind at 1.
  destruct (new_context b s) as [rc s1] eqn:E1.
  apply (new_context_spec (Some {| page_browser := b |})) in E1
    as [H1 [->|[msg ->]]]; [|by intros [= <- <-]].
  unfold mbind at 1, M_bind at 1.
  destruct (new_page b s1) as [rp s2] eqn:E2.
  apply (new_page_spec (Some {| page_browser := b |})) in E2
    as [H2 [->|[msg ->]]]; [|intros [= <- <-]; by etrans].
  unfold mbind at 1, M_bind at 1, assign_page at 1.
  intros H. etrans; [exact H1|]. etrans; [exact H2|].
  etrans; [apply assign_page_evolves|].
  revert H. apply preserves_bind; [apply _ | apply invoke_evolves |].
  intros out. apply preserves_ret, _.
Qed.

Lemma run_task_spec task s r s' :
  run_task agent_executor task s = (r, s') → browser s = None →
  let b := length (browsers s) in
  (∃ resp, r = Ok resp) ∧
  (∀ b', close_calls b' (calls s') = close_calls b' (calls s)) ∧
  (∀ i, browsers s !! i = Some false → browsers s' !! i = Some false) ∧
  ((browser s' = None ∧ browsers s' = browsers s ∧ page s' = page s) ∨
   (browser s' = Some b ∧ length (browsers s') = S b ∧
    (page s' = page s ∨ page s' = Some {| page_browser := b |}) ∧
    (calm (script s) = true → browsers s' !! b = Some true))).
Proof.
  intros H Hnone b. revert H. unfold run_task, try_except.
  unfold mbind at 1, M_bind at 1.
  destruct (launch s) as [rl s1] eqn:El.
  apply launch_spec in El
    as (Hp & Hl & Hc & Hcalm & [(msg & -> & Hb)|(up & -> & Hb & Hup)]).
  - intros [= <- <-]. split_and!; eauto.
    + by rewrite Hb.
    + left. split_and!; congruence.
  - unfold mbind at 1, M_bind at 1, assign_browser at 1.
    match goal with
    | |- match ?X with _ => _ end = _ → _ =>
        destruct X as [rr s3] eqn:Er
    end.
    apply session_evolves in Er. destruct Er. simpl in *.
    assert (Hgoal :
      (∀ b', close_calls b' (calls s3) = close_calls b' (calls s)) ∧
      (∀ i, browsers s !! i = Some false → browsers s3 !! i = Some false) ∧
      browser s3 = Some b ∧ length (browsers s3) = S b ∧
      (page s3 = page s ∨ page s3 = Some {| page_browser := b |}) ∧
      (calm (script s) = true → browsers s3 !! b = Some true)).
    { split_and!.
      - intros b'. by rewrite evo_closes0.
      - intros i Hi. apply evo_closed0. rewrite Hb.
        by apply lookup_app_l_Some.
      - done.
      - rewrite evo_length0, Hb, length_app. simpl. unfold b. lia.
      - destruct evo_page0 as [->|[_ ->]]; auto.
      - intros Hcm. destruct (evo_calm0 (Hcalm Hcm)) as [-> _].
        rewrite Hb, (Hup Hcm). unfold b.
        by rewrite lookup_app_r, Nat.sub_diag by lia. }
    destruct Hgoal as (G1 & G2 & G3 & G4 & G5 & G6).
    destruct rr; intros [= <- <-]; (split_and!; eauto; right; done).
Qed.

Lemma execute_task_spec data s r s' :
  execute_task agent_executor data s = (r, s') →
  let b := length (browsers s) in
  browser s' = browser s ∧
  (∀ i, browsers s !! i = Some false → browsers s' !! i = Some false) ∧
  ((length (browsers s') = b ∧ page s' = page s ∧
    ∀ b', close_calls b' (calls s') = close_calls b' (calls s)) ∨
   (length (browsers s') = S b ∧ browsers s' !! b = Some false ∧
    (page s' = page s ∨ page s' = Some {| page_browser := b |}) ∧
    (∀ b', b' ≠ b → close_calls b' (calls s') = close_calls b' (calls s)) ∧
    close_calls b (calls s') ≤ close_calls b (calls s) + 1 ∧
    (calm (script s) = true →
     close_calls b (calls s') = close_calls b (calls s) + 1))).
Proof.
  intros H b. revert H. unfold execute_task, call_frame.
  destruct (negb (truthy _)).
  { intros [= <- <-]. simpl. split_and!; auto. }
  unfold mbind at 1, M_bind at 1.
  destruct (sync_playwright (set_browser None s)) as [ru s1] eqn:Es.
  apply (sync_playwright_evolves None) in Es. destruct Es. simpl in *.
  destruct evo_page0 as [Hpage|[[? [=]] _]].
  destruct ru as [[]|msg].
  2:{ intros [= <- <-]. simpl. split_and!; auto. }
  unfold try_finally.
  destruct (run_task agent_executor _ s1) as [rt s2] eqn:Et.
  apply run_task_spec in Et as (_ & Hc & Hcl & Hcase); [|done].
  destruct Hcase as [(Hl & Hb & Hp)|(Hl & Hb & Hp & Hup)].
  - rewrite (close_browser_none s2 Hl). intros [= <- <-]. simpl.
    split_and!; auto. left. split_and!.
    + by rewrite Hb.
    + congruence.
    + intros b'. by rewrite Hc.
  - rewrite evo_length0 in Hl, Hb, Hp, Hup. fold b in Hl, Hb, Hp, Hup.
    destruct (close_browser_spec s2 b Hl)
      as (s3 & -> & Gp & Gl & Glen & Gb & Gcl & Gne & Geq); [lia|].
    intros [= <- <-]. simpl. split_and!; auto. right. split_and!.
    + congruence.
    + done.
    + rewrite Gp, <- Hpage. exact Hp.
    + intros b' Hne. by rewrite Gne, Hc.
    + rewrite Geq, Hc, evo_closes0. destruct (default _ _); lia.
    + intros Hcm. destruct (evo_calm0 Hcm) as [_ Hcm1].
      rewrite Geq, Hc, evo_closes0, (Hup Hcm1). simpl. lia.
Qed.

End TaskRunnerFacts.

(** ** The tools: the guard, the confirmations, the truncation *)

(** C5: every tool, called while the global [page] is unset, returns the
    observation "Browser is not running." and touches nothing: no call into
    Playwright is made and the state is the one it was called in. *)
Theorem tool_without_page_not_running (c : ToolCall) (s : State) :
  page s = None → run_tool c s = (Ok "Browser is not running.", s).
Proof. apply run_tool_guarded. Qed.

Lemma tool_without_page_not_running_witness :
  run_tool (TypeText "#q" "rocq") (boot [])
    = (Ok "Browser is not running.", boot []).
Proof.
  apply (tool_without_page_not_running (TypeText "#q" "rocq") (boot [])).
  reflexivity.
Defined.

Lemma google_search_try_ok pg query s obs s' :
  google_search_try pg query s = (Ok obs, s') →
  obs = "Successfully searched for '" +:+ query +:+
        "'. The results are now on the screen.".
Proof.
  unfold google_search_try, goto, fill, press, mbind, M_bind, mret, M_ret.
  intros H. repeat case_match; simplify_eq. done.
Qed.

Lemma navigate_to_url_try_ok pg url s obs s' :
  navigate_to_url_try pg url s = (Ok obs, s') →
  obs = "Successfully navigated to " +:+ url +:+ ".".
Proof.
  unfold navigate_to_url_try, goto, mbind, M_bind, mret, M_ret.
  intros H. repeat case_match; simplify_eq. done.
Qed.

(** C8: when the calls of the search tool succeed, its observation is
    "Successfully searched for '<query>'. The results are now on the screen.",
    which contains the query; when the navigation succeeds, the observation
    of the navigate tool is "Successfully navigated to <url>.", which
    contains the URL.  This holds for every query and every URL. *)
Theorem confirmation_names_argument (pg : Page) (s : State) :
  page s = Some pg →
  (∀ query obs s',
     google_search_try pg query s = (Ok obs, s') →
     google_search query s = (Ok obs, s') ∧
     obs = "Successfully searched for '" +:+ query +:+
           "'. The results are now on the screen." ∧
     contains query obs = true) ∧
  (∀ url obs s',
     navigate_to_url_try pg url s = (Ok obs, s') →
     navigate_to_url url s = (Ok obs, s') ∧
     obs = "Successfully navigated to " +:+ url +:+ "." ∧
     contains url obs = true).
Proof.
  intros Hp. split.
  - intros query obs s' H. split_and!.
    + change (run_tool (GoogleSearch query) s = (Ok obs, s')).
      rewrite (run_tool_active _ pg s Hp). unfold try_except. simpl.
      by rewrite H.
    + by eapply google_search_try_ok.
    + rewrite (google_search_try_ok _ _ _ _ _ H). apply contains_app.
  - intros url obs s' H. split_and!.
    + change (run_tool (NavigateToUrl url) s = (Ok obs, s')).
      rewrite (run_tool_active _ pg s Hp). unfold try_except. simpl.
      by rewrite H.
    + by eapply navigate_to_url_try_ok.
    + rewrite (navigate_to_url_try_ok _ _ _ _ _ H). apply contains_app.
Qed.

Lemma confirmation_names_argument_witness :
  contains "rocq prover"
    "Successfully searched for 'rocq prover'. The results are now on the screen."
    = true ∧
  navigate_to_url "https://rocq-prover.org" (active [])
    = (Ok "Successfully navigated to https://rocq-prover.org.",
       record_call
         (OpGoto {| page_browser := 0 |} "https://rocq-prover.org") (active [])).
Proof.
  destruct (confirmation_names_argument {| page_browser := 0 |} (active [])
              eq_refl) as [Hs Hn].
  split.
  - destruct (Hs "rocq prover" _ _ eq_refl) as (_ & _ & H). exact H.
  - destruct (Hn "https://rocq-prover.org" _ _ eq_refl) as (H & _ & _).
    exact H.
Defined.

(** C3, as stated, fails on the code: the bound of 4000 characters is on the
    page text only.  When the read raises, the observation is the text
    "Could not get page content. Error: " followed by the whole message of
    the exception; with a message of 4000 characters it has 4035. *)
Lemma read_page_error_text_exceeds_bound :
  ¬ (∀ s obs s',
       read_current_page_content s = (Ok obs, s') → String.length obs ≤ 4000).
Proof.
  intros H.
  specialize (H (active [raises (repeat_str 4000 "x")]) _ _ eq_refl).
  vm_compute in H. lia.
Qed.

Lemma read_try_ok pg s text s1 :
  (wait_for_load_state pg "networkidle" ;; inner_text pg "body") s
    = (Ok text, s1) →
  read_current_page_content_try pg s = (Ok (slice_to 4000 text), s1).
Proof.
  unfold read_current_page_content_try, wait_for_load_state,
    mbind, M_bind, mret, M_ret.
  intros H. repeat case_match; simplify_eq. done.
Qed.

(** C3, amended: when the page handle is set and neither the wait for the
    network nor the read of the body raises, the observation is the first
    4000 characters of the body text: its length is the smaller of 4000 and
    the length of the text, hence at most 4000, and exactly 4000 for a body
    text of 10000 characters.  When the read raises [msg], the observation
    is "Could not get page content. Error: " followed by [msg], whatever its
    length. *)
Theorem read_page_truncates_page_text (pg : Page) (s : State) :
  page s = Some pg →
  (∀ text s1,
     (wait_for_load_state pg "networkidle" ;; inner_text pg "body") s
       = (Ok text, s1) →
     read_current_page_content s = (Ok (slice_to 4000 text), s1) ∧
     String.length (slice_to 4000 text) = 4000 `min` String.length text ∧
     String.length (slice_to 4000 text) ≤ 4000 ∧
     (String.length text = 10000 →
      String.length (slice_to 4000 text) = 4000)) ∧
  (∀ msg s1,
     read_current_page_content_try pg s = (Exc msg, s1) →
     read_current_page_content s
       = (Ok ("Could not get page content. Error: " +:+ msg), s1)).
Proof.
  intros Hp. split.
  - intros text s1 H. split_and!.
    + change (run_tool ReadCurrentPageContent s = (Ok (slice_to 4000 text), s1)).
      rewrite (run_tool_active _ pg s Hp). unfold try_except. simpl.
      by rewrite (read_try_ok _ _ _ _ H).
    + apply slice_to_length.
    + rewrite slice_to_length. apply Nat.le_min_l.
    + intros Hlen. rewrite slice_to_length, Hlen. reflexivity.
  - intros msg s1 H.
    change (run_tool ReadCurrentPageContent s
            = (Ok ("Could not get page content. Error: " +:+ msg), s1)).
    rewrite (run_tool_active _ pg s Hp). unfold try_except. simpl.
    by rewrite H.
Qed.

Lemma read_page_truncates_page_text_witness :
  ∃ s1,
    read_current_page_content
      (active [returns ""; returns (repeat_str 10000 "x")])
      = (Ok (repeat_str 4000 "x"), s1) ∧
    String.length (repeat_str 4000 "x") = 4000.
Proof.
  destruct (read_page_truncates_page_text {| page_browser := 0 |}
              (active [returns ""; returns (repeat_str 10000 "x")])
              eq_refl) as [H _].
  eexists.
  destruct (H (repeat_str 10000 "x") _ ltac:(vm_compute; reflexivity))
    as (Hr & _ & _ & Hl).
  split.
  - etrans; [exact Hr|]. vm_compute. reflexivity.
  - etrans; [|exact (Hl ltac:(vm_compute; reflexivity))].
    vm_compute. reflexivity.
Defined.

(** ** The entry point *)

(** C9: when the request object has no [task] key, or its task is the empty
    string, [execute_task] answers with the error "No task provided" and
    status 400 and leaves the state as it found it: Playwright is not
    started, no browser is launched, the executor is not invoked (the spy
    records no call) and the global [page] is what it was. *)
Theorem no_task_no_session (agent_executor : json → Agent (res string))
    (data : gmap string json) (s : State) :
  data !! "task" = None ∨ data !! "task" = Some (JStr "") →
  execute_task agent_executor data s
    = (Ok {| body := BError "No task provided"; status := 400 |}, s).
Proof.
  intros [H|H]; unfold execute_task, call_frame; rewrite H; simpl;
    by destruct s.
Qed.

Lemma no_task_no_session_witness :
  execute_task click_then_answer {[ "task" := JStr "" ]} (boot [])
    = (Ok {| body := BError "No task provided"; status := 400 |}, boot []).
Proof.
  apply (no_task_no_session click_then_answer {[ "task" := JStr "" ]} (boot [])).
  right. apply lookup_singleton_eq.
Defined.

(** C2, as stated, fails on the code: the [finally] block calls [close()]
    only when [browser.is_connected()] holds.  Here the browser dies during
    the executor's click; the tool reports the error, the executor gives its
    answer, the task ends with status 200, and the spy has seen no
    [close()] on the browser that was launched. *)
Lemma close_skipped_when_browser_died :
  ¬ (∀ agent_executor data s r s',
       execute_task agent_executor data s = (r, s') →
       length (browsers s') = S (length (browsers s)) →
       close_calls (length (browsers s)) (calls s')
         = close_calls (length (browsers s)) (calls s) + 1).
Proof.
  intros H.
  specialize (H click_then_answer {[ "task" := JStr "buy it" ]}
    (boot [returns ""; returns ""; returns ""; returns "";
           dies "Target page, context or browser has been closed"])
    _ _ eq_refl eq_refl).
  vm_compute in H. discriminate H.
Qed.

(** ** The global page handle across requests *)

Lemma playwright_calls o b s r s' :
  playwright o b s = (r, s') → length (calls s') = S (length (calls s)).
Proof.
  unfold playwright.
  destruct (next_event (record_call o s)) as [e s1] eqn:E.
  apply next_event_frame in E as (_ & _ & _ & Hc & _). simpl in Hc.
  assert (length (calls s1) = S (length (calls s)))
    by (rewrite Hc, length_app; simpl; lia).
  destruct (ev_crash e), (ev_raise e); intros [= <- <-]; done.
Qed.

Lemma grows_bind {A B} (m : M A) (f : A → M B) :
  (∀ s r s', m s = (r, s') → length (calls s) < length (calls s')) →
  (∀ a, preserves (evolves None) (f a)) →
  ∀ s r s', (m ≫= f) s = (r, s') → length (calls s) < length (calls s').
Proof.
  intros Hm Hf s r s'. unfold mbind, M_bind.
  destruct (m s) as [[a|e] s1] eqn:E.
  - intros H. apply Hm in E. apply Hf in H. destruct H. lia.
  - intros [= <- <-]. eapply Hm, E.
Qed.

Lemma tool_try_calls c pg s r s' :
  tool_try c pg s = (r, s') → length (calls s) < length (calls s').
Proof.
  revert s r s'.
  destruct c; simpl;
    unfold google_search_try, navigate_to_url_try, type_text_try,
      click_element_try, read_current_page_content_try,
      goto, fill, press, click, wait_for_load_state, inner_text;
    (apply grows_bind; [|intros ?; evolve]);
    (apply grows_bind; [|intros ?; evolve]);
    intros s r s' H; apply playwright_calls in H; lia.
Qed.

Lemma stale_execute_task agent_executor data s :
  stale s → stale (execute_task agent_executor data s).2.
Proof.
  intros Hs pg Hpg.
  destruct (execute_task agent_executor data s) as [r s'] eqn:E.
  apply execute_task_spec in E as (_ & Hcl & [(_ & Hp & _)|Hnew]);
    simpl in *.
  - apply Hcl, Hs. congruence.
  - destruct Hnew as (_ & Hb & [Hp|Hp] & _).
    + apply Hcl, Hs. congruence.
    + rewrite Hp in Hpg. by simplify_eq.
Qed.

Lemma page_kept agent_executor data s :
  is_Some (page s) → is_Some (page (execute_task agent_executor data s).2).
Proof.
  intros Hs.
  destruct (execute_task agent_executor data s) as [r s'] eqn:E.
  apply execute_task_spec in E as (_ & _ & [(_ & Hp & _)|Hnew]); simpl.
  - by rewrite Hp.
  - destruct Hnew as (_ & _ & [Hp|Hp] & _); rewrite Hp; eauto.
Qed.

Lemma serve_stale reqs s : stale s → stale (serve reqs s).
Proof.
  revert s. induction reqs as [|[agent_executor data] reqs IH]; intros s Hs.
  - done.
  - simpl. by apply IH, stale_execute_task.
Qed.

Lemma serve_page_kept reqs s : is_Some (page s) → is_Some (page (serve reqs s)).
Proof.
  revert s. induction reqs as [|[agent_executor data] reqs IH]; intros s Hs.
  - done.
  - simpl. by apply IH, page_kept.
Qed.

(** C10: no request resets the global [page].  Before the first task the
    handle is unset and every tool answers "Browser is not running.".  Once
    the requests served so far have left a page in the handle, that page
    belongs to a browser that is no longer connected; after any further
    requests the handle is still set, again to a page of a browser that is no
    longer connected; and a tool called then does not stop at its guard: it
    runs the calls of its [try] block on that page, so the spy records at
    least one more call into Playwright. *)
Theorem page_handle_never_reset
    (reqs : list ((json → Agent (res string)) * gmap string json))
    (sc : list Event) (pg : Page) :
  page (serve reqs (boot sc)) = Some pg →
  (∀ c, run_tool c (boot sc) = (Ok "Browser is not running.", boot sc)) ∧
  browsers (serve reqs (boot sc)) !! page_browser pg = Some false ∧
  (∀ more, ∃ pg',
     page (serve more (serve reqs (boot sc))) = Some pg' ∧
     browsers (serve more (serve reqs (boot sc))) !! page_browser pg'
       = Some false) ∧
  (∀ c,
     run_tool c (serve reqs (boot sc))
       = try_except (tool_try c pg) (λ e, mret (error_prefix c +:+ e))
           (serve reqs (boot sc)) ∧
     length (calls (serve reqs (boot sc)))
       < length (calls (run_tool c (serve reqs (boot sc))).2)).
Proof.
  intros Hpg.
  assert (Hstale : stale (serve reqs (boot sc))).
  { apply serve_stale. intros pg' [=]. }
  split_and!.
  - intros c. by apply run_tool_guarded.
  - by apply Hstale.
  - intros more.
    destruct (serve_page_kept more (serve reqs (boot sc))) as [pg' Hpg'];
      [by rewrite Hpg|].
    exists pg'. split; [done|]. by apply serve_stale.
  - intros c. rewrite (run_tool_active c pg _ Hpg). split; [done|].
    unfold try_except.
    destruct (tool_try c pg (serve reqs (boot sc))) as [[obs|e] s1] eqn:E;
      simpl; by apply tool_try_calls in E.
Qed.

Lemma page_handle_never_reset_witness :
  browsers (serve [(answer_at_once, {[ "task" := JStr "go" ]})] (boot []))
    !! 0 = Some false ∧
  run_tool ReadCurrentPageContent
    (serve [(answer_at_once, {[ "task" := JStr "go" ]})] (boot []))
    = try_except
        (tool_try ReadCurrentPageContent {| page_browser := 0 |})
        (λ e, mret (error_prefix ReadCurrentPageContent +:+ e))
        (serve [(answer_at_once, {[ "task" := JStr "go" ]})] (boot [])).
Proof.
  assert (Hpg :
    page (serve [(answer_at_once, {[ "task" := JStr "go" ]})] (boot []))
      = Some {| page_browser := 0 |}) by reflexivity.
  destruct (page_handle_never_reset
              [(answer_at_once, {[ "task" := JStr "go" ]})] [] _ Hpg)
    as (_ & Hb & _ & Ht).
  split; [exact Hb | exact (proj1 (Ht ReadCurrentPageContent))].
Defined.

(** ** The agent loop *)

Lemma assoc_None {V} (k : string) (l : list (string * V)) :
  k ∉ l.*1 → assoc k l = None.
Proof.
  induction l as [|[k' v] l IH]; simpl; [done|].
  intros Hk. apply not_elem_of_cons in Hk as [Hne Hk].
  rewrite bool_decide_eq_false_2 by done. auto.
Qed.


Section AgentLoopFacts.

Variable oracle : json → list HistoryStep → string.
Variable parse : string → Parsed.
Variable max_iterations : nat.
Variable max_parse_retries : nat.

Local Abbreviation think := (cycle oracle parse).
Local Abbreviation loop := (agent_loop oracle parse max_parse_retries).

Lemma agent_loop_live task left h fails :
  fails ≤ max_parse_retries →
  loop task (S left) h fails =
    match think task h fails with
    | Finished r => Stop (r, h)
    | Continue h' fails' => loop task left h' fails'
    | Invoke c k => Call c (λ obs, loop task left (k obs) 0)
    end.
Proof.
  intros Hf. simpl. rewrite bool_decide_eq_false_2 by lia. done.
Qed.

Lemma agent_loop_exceeded task left h fails :
  max_parse_retries < fails →
  loop task left h fails = Stop (Failed UnparseableOutput, h).
Proof.
  intros Hf. destruct left; simpl; by rewrite bool_decide_eq_true_2.
Qed.

Lemma cycle_invoke task h fails c k :
  think task h fails = Invoke c k →
  ∃ name input,
    parse (oracle task h) = Act name input ∧
    k = λ obs, h ++ [{| action := name; action_input := input;
                        observation := obs |}].
Proof.
  unfold cycle. destruct (parse (oracle task h)) as [name input|a|r];
    [|done..].
  destruct (assoc name toolbox) as [bind|]; [|done].
  destruct (bind input); [|done].
  intros [= <- <-]. eauto.
Qed.


End AgentLoopFacts.

Section AgentLoopClaims.

Variable oracle : json → list HistoryStep → string.
Variable parse : string → Parsed.
Variable max_iterations : nat.
Variable max_parse_retries : nat.

(** C6: when the oracle's answer cannot be parsed, the cycle ends neither
    the run nor in an exception: it goes back to Thinking with a step
    added to the history whose observation tells the oracle to answer with
    a JSON object with an [action] and an [action_input] key, and with the
    count of parse failures in a row raised by one.  If the count is then
    above [max_parse_retries], the loop is in the terminal state
    Failed(unparseable-output); otherwise it asks the oracle again. *)
Theorem parse_failure_is_corrected (task : json) (left : nat)
    (h : list HistoryStep) (fails : nat) (reason : string) :
  parse (oracle task h) = ParseFailure reason →
  cycle oracle parse task h fails =
    Continue (h ++ [corrective_step (oracle task h)]) (S fails) ∧
  contains "`action`" (observation (corrective_step (oracle task h))) = true ∧
  contains "`action_input`" (observation (corrective_step (oracle task h)))
    = true ∧
  (fails ≤ max_parse_retries →
   agent_loop oracle parse max_parse_retries task (S left) h fails =
     agent_loop oracle parse max_parse_retries task left
       (h ++ [corrective_step (oracle task h)]) (S fails)) ∧
  (max_parse_retries < S fails →
   agent_loop oracle parse max_parse_retries task left
     (h ++ [corrective_step (oracle task h)]) (S fails)
   = Stop (Failed UnparseableOutput,
           h ++ [corrective_step (oracle task h)])) ∧
  (S fails ≤ max_parse_retries →
   ∀ left',
     agent_loop oracle parse max_parse_retries task (S left')
       (h ++ [corrective_step (oracle task h)]) (S fails) =
     match cycle oracle parse task
             (h ++ [corrective_step (oracle task h)]) (S fails) with
     | Finished r => Stop (r, h ++ [corrective_step (oracle task h)])
     | Continue h' fails' =>
         agent_loop oracle parse max_parse_retries task left' h' fails'
     | Invoke c k =>
         Call c (λ obs,
           agent_loop oracle parse max_parse_retries task left' (k obs) 0)
     end).
Proof.
  intros Hp.
  assert (Hc : cycle oracle parse task h fails =
    Continue (h ++ [corrective_step (oracle task h)]) (S fails)).
  { unfold cycle. by rewrite Hp. }
  split_and!.
  - exact Hc.
  - reflexivity.
  - reflexivity.
  - intros Hf. rewrite agent_loop_live by done. by rewrite Hc.
  - intros Hf. by apply agent_loop_exceeded.
  - intros Hf left'. by apply agent_loop_live.
Qed.

(** C7: when the decision names an action that is not one of the tools,
    the cycle ends neither the run nor in an exception: it goes back to
    Thinking with a step added to the history whose observation contains
    the name of the invalid action, and, while iterations are left, the
    loop asks the oracle again. *)
Theorem unknown_action_is_observed (task : json) (left : nat)
    (h : list HistoryStep) (fails : nat) (name : string) (input : json) :
  parse (oracle task h) = Act name input →
  name ∉ tool_names →
  cycle oracle parse task h fails =
    Continue (h ++ [{| action := name; action_input := input;
                       observation := invalid_action name |}]) 0 ∧
  contains name (invalid_action name) = true ∧
  (fails ≤ max_parse_retries →
   agent_loop oracle parse max_parse_retries task (S left) h fails =
     agent_loop oracle parse max_parse_retries task left
       (h ++ [{| action := name; action_input := input;
                 observation := invalid_action name |}]) 0) ∧
  (∀ left' h',
     agent_loop oracle parse max_parse_retries task (S left') h' 0 =
     match cycle oracle parse task h' 0 with
     | Finished r => Stop (r, h')
     | Continue h'' fails' =>
         agent_loop oracle parse max_parse_retries task left' h'' fails'
     | Invoke c k =>
         Call c (λ obs,
           agent_loop oracle parse max_parse_retries task left' (k obs) 0)
     end).
Proof.
  intros Hp Hname.
  assert (Hc : cycle oracle parse task h fails =
    Continue (h ++ [{| action := name; action_input := input;
                       observation := invalid_action name |}]) 0).
  { unfold cycle. rewrite Hp. by rewrite (assoc_None name toolbox Hname). }
  split_and!.
  - exact Hc.
  - apply contains_app.
  - intros Hf. rewrite agent_loop_live by done. by rewrite Hc.
  - intros left' h'. apply agent_loop_live. lia.
Qed.

(** C4: no tool lets an exception out: whatever the state and the input,
    a tool returns an observation.  When the calls in its [try] block
    raise [msg], the observation is the tool's error text followed by
    [msg]; and a loop that dispatched the tool goes on from the state the
    failed call left, back in Thinking with that observation as the last
    step of its history. *)
Theorem tool_failure_is_observation (task : json) (left : nat)
    (h : list HistoryStep) (fails : nat) (c : ToolCall) (pg : Page)
    (msg : string) (s s1 : State) :
  page s = Some pg →
  tool_try c pg s = (Exc msg, s1) →
  (∀ c0 s0, ∃ obs s', run_tool c0 s0 = (Ok obs, s')) ∧
  run_tool c s = (Ok (error_prefix c +:+ msg), s1) ∧
  (∀ k, fails ≤ max_parse_retries →
        cycle oracle parse task h fails = Invoke c k →
        run_agent
          (agent_loop oracle parse max_parse_retries task (S left) h fails) s
        = run_agent
            (agent_loop oracle parse max_parse_retries task left
               (k (error_prefix c +:+ msg)) 0) s1 ∧
        ∃ name input,
          k (error_prefix c +:+ msg) =
            h ++ [{| action := name; action_input := input;
                     observation := error_prefix c +:+ msg |}]).
Proof.
  intros Hp Ht.
  assert (Hrun : run_tool c s = (Ok (error_prefix c +:+ msg), s1)).
  { rewrite (run_tool_active c pg s Hp). unfold try_except. by rewrite Ht. }
  split_and!.
  - apply run_tool_total.
  - exact Hrun.
  - intros k Hf Hc. split.
    + rewrite agent_loop_live by done. rewrite Hc. simpl.
      unfold mbind, M_bind. by rewrite Hrun.
    + apply cycle_invoke in Hc as (name & input & _ & ->). eauto.
Qed.

End AgentLoopClaims.

Lemma parse_failure_is_corrected_witness :
  cycle same_answer reads_nothing (JStr "buy milk") [] 0
    = Continue [corrective_step "click the button"] 1 ∧
  agent_loop same_answer reads_nothing 0 (JStr "buy milk") 3
    [corrective_step "click the button"] 1
    = Stop (Failed UnparseableOutput, [corrective_step "click the button"]).
Proof.
  destruct (parse_failure_is_corrected same_answer reads_nothing 0
              (JStr "buy milk") 3 [] 0 "no JSON object found" eq_refl)
    as (Hc & _ & _ & _ & Hx & _).
  split; [exact Hc | apply Hx; lia].
Defined.

Lemma unknown_action_is_observed_witness :
  cycle same_answer reads_scroll (JStr "buy milk") [] 0
    = Continue [{| action := "scroll_down"; action_input := JStr "";
                   observation := invalid_action "scroll_down" |}] 0.
Proof.
  destruct (unknown_action_is_observed same_answer reads_scroll 2
              (JStr "buy milk") 3 [] 0 "scroll_down" (JStr "") eq_refl)
    as (Hc & _).
  { apply (bool_decide_unpack _). vm_compute. exact I. }
  exact Hc.
Defined.

Lemma tool_failure_is_observation_witness :
  run_tool (ClickElement "#buy") (active [raises "Timeout 30000ms exceeded."])
    = (Ok "Error clicking element: Timeout 30000ms exceeded.",
       record_call (OpClick {| page_browser := 0 |} "#buy") (active [])).
Proof.
  destruct (tool_failure_is_observation same_answer reads_click 2
              (JStr "buy milk") 3 [] 0 (ClickElement "#buy")
              {| page_browser := 0 |} "Timeout 30000ms exceeded."
              (active [raises "Timeout 30000ms exceeded."])
              (record_call (OpClick {| page_browser := 0 |} "#buy") (active []))
              eq_refl eq_refl)
    as (_ & Hr & _).
  exact Hr.
Defined.


(** * More on the tools and the entry point *)

(** ** What a call into Playwright does to the script and to the record *)

Lemma next_event_eq s :
  next_event s = (event_at (script s) 0, set_script (tail (script s)) s).
Proof.
  unfold next_event, event_at. destruct s as [p b bs sc cl]; simpl.
  by destruct sc.
Qed.

Lemma event_at_tail sc n : event_at (tail sc) n = event_at sc (S n).
Proof. unfold event_at. by rewrite lookup_tail. Qed.

Lemma playwright_inv o b s r s' :
  playwright o b s = (r, s') →
  calls s' = calls s ++ [o] ∧ script s' = tail (script s) ∧
  page s' = page s ∧
  r = match ev_raise (event_at (script s) 0) with
      | Some msg => Exc msg
      | None => Ok (ev_text (event_at (script s) 0))
      end.
Proof.
  unfold playwright. rewrite next_event_eq. simpl.
  destruct (ev_crash _), (ev_raise _); intros [= <- <-]; done.
Qed.

Global Instance logged_preorder P : PreOrder (logged P).
Proof.
  split.
  - intros s. exists []. by rewrite app_nil_r.
  - intros s1 s2 s3 (n1 & H1 & P1) (n2 & H2 & P2). exists (n1 ++ n2).
    rewrite H2, H1, <- app_assoc, forallb_app, P1, P2. done.
Qed.

Lemma playwright_logged P o b : P o = true → preserves (logged P) (playwright o b).
Proof.
  intros HP s r s' H. apply playwright_inv in H as (Hc & _).
  exists [o]. simpl. by rewrite HP.
Qed.

Lemma on_page_self pg o :
  page_op o = true → op_browser o = Some (page_browser pg) → on_page pg o = true.
Proof.
  intros H1 H2. unfold on_page. rewrite H1, bool_decide_eq_true_2; done.
Qed.

Lemma tool_try_logged c pg : preserves (logged (on_page pg)) (tool_try c pg).
Proof.
  destruct c; simpl;
    unfold google_search_try, navigate_to_url_try, type_text_try,
      click_element_try, read_current_page_content_try,
      goto, fill, press, click, wait_for_load_state, inner_text;
    repeat first
      [ apply preserves_ret; apply _
      | apply preserves_bind; [apply _ | | intros ?]
      | apply playwright_logged; by apply on_page_self ].
Qed.

Lemma run_tool_logged c pg s r s' :
  page s = Some pg → run_tool c s = (r, s') → logged (on_page pg) s s'.
Proof.
  intros Hpg E. rewrite (run_tool_active c pg s Hpg) in E.
  assert (Hpr : preserves (logged (on_page pg))
            (try_except (tool_try c pg) (λ e, mret (error_prefix c +:+ e)))).
  { apply preserves_try_except; [apply _ | apply tool_try_logged |].
    intros e. apply preserves_ret, _. }
  exact (Hpr _ _ _ E).
Qed.

(** X4: a tool leaves the session alone: it does not change the global
    [page] nor the number of browsers, and it never calls [close()].  With
    the page handle unset it makes no call at all; with the handle set,
    every call it makes is a call on that page. *)
Theorem tool_acts_only_on_current_page (c : ToolCall) (s : State) :
  page (run_tool c s).2 = page s ∧
  browser (run_tool c s).2 = browser s ∧
  length (browsers (run_tool c s).2) = length (browsers s) ∧
  (∀ b, close_calls b (calls (run_tool c s).2) = close_calls b (calls s)) ∧
  (page s = None → calls (run_tool c s).2 = calls s) ∧
  (∀ pg, page s = Some pg →
     ∃ new, calls (run_tool c s).2 = calls s ++ new ∧
            forallb (on_page pg) new = true).
Proof.
  destruct (run_tool c s) as [r s'] eqn:E. simpl.
  pose proof (run_tool_evolves None c s r s' E) as [Hp Hl Hn _ Hc _ _].
  split_and!; auto.
  - by destruct Hp as [?|[[? [=]] _]].
  - intros Hnone. rewrite (run_tool_guarded c s Hnone) in E. by simplify_eq.
  - intros pg Hpg. by eapply run_tool_logged.
Qed.

(** ** The calls of a tool, one by one *)

Lemma tool_try_run_ops c pg s :
  tool_try c pg s =
    (t ← run_ops (page_browser pg) (tool_ops c pg) ""; mret (tool_success c t)) s.
Proof.
  destruct c; simpl;
    unfold google_search_try, navigate_to_url_try, type_text_try,
      click_element_try, read_current_page_content_try,
      goto, fill, press, click, wait_for_load_state, inner_text,
      mbind, M_bind, mret, M_ret;
    repeat (destruct (playwright _ _ _) as [[?|?] ?]; try reflexivity).
Qed.

Lemma drop_tail {A} (l : list A) n : drop n (tail l) = drop (S n) l.
Proof. destruct l; simpl; [by rewrite drop_nil | done]. Qed.

Lemma run_ops_inv b ops last s r s' :
  run_ops b ops last s = (r, s') →
  match r with
  | Ok t =>
      calls s' = calls s ++ ops ∧
      script s' = drop (length ops) (script s) ∧
      (∀ n, n < length ops → ev_raise (event_at (script s) n) = None) ∧
      t = match ops with
          | [] => last
          | _ => ev_text (event_at (script s) (pred (length ops)))
          end
  | Exc msg =>
      ∃ n, n < length ops ∧
           calls s' = calls s ++ take (S n) ops ∧
           script s' = drop (S n) (script s) ∧
           ev_raise (event_at (script s) n) = Some msg ∧
           (∀ m, m < n → ev_raise (event_at (script s) m) = None)
  end.
Proof.
  revert last s. induction ops as [|o ops IH]; intros last s; simpl.
  - intros [= <- <-]. rewrite app_nil_r. split_and!; auto. intros n; lia.
  - unfold mbind, M_bind.
    destruct (playwright o b s) as [rt s1] eqn:E.
    apply playwright_inv in E as (Hc & Hs & _ & ->).
    destruct (ev_raise (event_at (script s) 0)) as [msg|] eqn:Er.
    + intros [= <- <-]. exists 0. rewrite take_0.
      split_and!;
        [lia | done | rewrite Hs; by destruct (script s) | done
        | intros m; lia].
    + intros H. apply IH in H. destruct r as [t|msg].
      * destruct H as (Hc' & Hs' & Hn & Ht). split_and!.
        -- by rewrite Hc', Hc, <- app_assoc.
        -- by rewrite Hs', Hs, drop_tail.
        -- intros [|n] Hlt; [done|]. rewrite <- event_at_tail, <- Hs.
           apply Hn. lia.
        -- destruct ops as [|o' ops']; [done|]. simpl in *.
           by rewrite Ht, Hs, event_at_tail.
      * destruct H as (n & Hlt & Hc' & Hs' & Hr & Hm). exists (S n).
        split_and!.
        -- lia.
        -- by rewrite Hc', Hc, <- app_assoc.
        -- by rewrite Hs', Hs, drop_tail.
        -- by rewrite <- event_at_tail, <- Hs.
        -- intros [|m] Hlt'; [done|]. rewrite <- event_at_tail, <- Hs.
           apply Hm. lia.
Qed.

(** X1: with the page handle set, a tool whose calls all return makes the
    calls of its [try] block, in their order and with the arguments it was
    given, and answers with its confirmation (the page text cut at 4000
    characters for the read tool). *)
Theorem tool_succeeds_when_calls_return (c : ToolCall) (pg : Page) (s : State) :
  page s = Some pg →
  (∀ n, n < length (tool_ops c pg) → ev_raise (event_at (script s) n) = None) →
  ∃ s',
    run_tool c s =
      (Ok (tool_success c
             (ev_text (event_at (script s) (pred (length (tool_ops c pg)))))),
       s') ∧
    calls s' = calls s ++ tool_ops c pg ∧
    script s' = drop (length (tool_ops c pg)) (script s).
Proof.
  intros Hp Hq. rewrite (run_tool_active c pg s Hp). unfold try_except.
  rewrite tool_try_run_ops. unfold mbind, M_bind.
  destruct (run_ops _ _ _ s) as [[t|msg] s'] eqn:E; apply run_ops_inv in E.
  - destruct E as (Hc & Hs & _ & ->). exists s'. split_and!; auto.
    by destruct c.
  - destruct E as (n & Hlt & _ & _ & Hr & _). rewrite (Hq n Hlt) in Hr.
    discriminate Hr.
Qed.

Lemma tool_succeeds_when_calls_return_witness :
  ∃ s',
    run_tool (TypeText "#q" "rocq") (active [])
      = (Ok "Successfully typed 'rocq' into the element.", s') ∧
    calls s' = [OpFill {| page_browser := 0 |} "#q" "rocq"].
Proof.
  destruct (tool_succeeds_when_calls_return (TypeText "#q" "rocq")
              {| page_browser := 0 |} (active []) eq_refl)
    as (s' & Hr & Hc & _).
  { intros n _. by destruct n. }
  exists s'. split; [exact Hr | exact Hc].
Defined.

(** X2: with the page handle set, a tool stops at the first call that
    raises: the calls before it were made, the calls after it are not, and
    the observation is the tool's error text followed by the message of
    that exception. *)
Theorem tool_stops_at_first_failure (c : ToolCall) (pg : Page) (s : State)
    (n : nat) (msg : string) :
  page s = Some pg →
  n < length (tool_ops c pg) →
  (∀ m, m < n → ev_raise (event_at (script s) m) = None) →
  ev_raise (event_at (script s) n) = Some msg →
  ∃ s',
    run_tool c s = (Ok (error_prefix c +:+ msg), s') ∧
    calls s' = calls s ++ take (S n) (tool_ops c pg) ∧
    script s' = drop (S n) (script s).
Proof.
  intros Hp Hn Hbefore Hat. rewrite (run_tool_active c pg s Hp).
  unfold try_except. rewrite tool_try_run_ops. unfold mbind, M_bind.
  destruct (run_ops _ _ _ s) as [[t|msg'] s'] eqn:E; apply run_ops_inv in E.
  - destruct E as (_ & _ & Hq & _). rewrite (Hq n Hn) in Hat. discriminate Hat.
  - destruct E as (n' & Hlt & Hc & Hs & Hr & Hm).
    assert (n' = n) as ->.
    { destruct (lt_eq_lt_dec n' n) as [[Hlt'|]|Hgt]; [|done|].
      - rewrite (Hbefore n' Hlt') in Hr. discriminate Hr.
      - rewrite (Hm n Hgt) in Hat. discriminate Hat. }
    rewrite Hat in Hr. simplify_eq. exists s'. split_and!; auto.
Qed.

Lemma tool_stops_at_first_failure_witness :
  ∃ s',
    run_tool (GoogleSearch "rocq")
      (active [returns ""; raises "Timeout 30000ms exceeded."])
      = (Ok "Error during Google search: Timeout 30000ms exceeded.", s') ∧
    calls s' =
      take 2 (tool_ops (GoogleSearch "rocq") {| page_browser := 0 |}).
Proof.
  destruct (tool_stops_at_first_failure (GoogleSearch "rocq")
              {| page_browser := 0 |}
              (active [returns ""; raises "Timeout 30000ms exceeded."])
              1 "Timeout 30000ms exceeded." eq_refl)
    as (s' & Hr & Hc & _).
  - simpl. lia.
  - intros [|m] Hm; [reflexivity | lia].
  - reflexivity.
  - exists s'. split; [exact Hr | exact Hc].
Defined.

Lemma slice_to_all n s : String.length s ≤ n → slice_to n s = s.
Proof.
  revert s. induction n as [|n IH]; intros [|c s]; simpl; try done.
  - lia.
  - intros H. f_equal. apply IH. lia.
Qed.

Lemma slice_to_prefix n s : ∃ rest, s = slice_to n s +:+ rest.
Proof.
  revert s. induction n as [|n IH]; intros [|c s]; simpl.
  - by exists "".
  - by eexists.
  - by exists "".
  - destruct (IH s) as [rest Hr]. exists rest.
    change (String c s = String c (slice_to n s +:+ rest)). by f_equal.
Qed.

(** X3: when the read tool succeeds, its observation is a prefix of the
    body text of the page; a body text of at most 4000 characters comes back
    whole. *)
Theorem read_page_keeps_short_text (pg : Page) (s : State) :
  page s = Some pg →
  ev_raise (event_at (script s) 0) = None →
  ev_raise (event_at (script s) 1) = None →
  ∃ obs s',
    read_current_page_content s = (Ok obs, s') ∧
    (∃ rest, ev_text (event_at (script s) 1) = obs +:+ rest) ∧
    (String.length (ev_text (event_at (script s) 1)) ≤ 4000 →
     obs = ev_text (event_at (script s) 1)).
Proof.
  intros Hp H0 H1.
  destruct (tool_succeeds_when_calls_return ReadCurrentPageContent pg s Hp)
    as (s' & Hr & _).
  { intros [|[|n]] Hn; simpl in Hn; [done|done|lia]. }
  eexists _, s'. split; [exact Hr|]. split.
  - exact (slice_to_prefix 4000 (ev_text (event_at (script s) 1))).
  - exact (slice_to_all 4000 (ev_text (event_at (script s) 1))).
Qed.

Lemma read_page_keeps_short_text_witness :
  ∃ s',
    read_current_page_content (active [returns ""; returns "Example Domain"])
      = (Ok "Example Domain", s').
Proof.
  destruct (read_page_keeps_short_text {| page_browser := 0 |}
              (active [returns ""; returns "Example Domain"])
              eq_refl eq_refl eq_refl)
    as (obs & s' & Hr & _ & Hall).
  exists s'. rewrite Hr, Hall; [reflexivity|].
  vm_compute. lia.
Defined.

(** ** The entry point, call by call *)

Lemma run_agent_logged {R} (a : Agent R) pg s r s' :
  page s = Some pg → run_agent a s = (r, s') →
  page s' = Some pg ∧ logged (on_page pg) s s'.
Proof.
  revert s. induction a as [x|c k IH]; intros s Hpg; simpl.
  - intros [= <- <-]. split; [done | reflexivity].
  - unfold mbind, M_bind.
    destruct (run_tool c s) as [[obs|msg] s1] eqn:E.
    + pose proof (run_tool_logged c pg s _ _ Hpg E) as Hl.
      pose proof (run_tool_evolves None c s _ _ E) as [Hp _ _ _ _ _ _].
      destruct Hp as [Hp|[[? [=]] _]]. rewrite <- Hp in Hpg.
      intros H. destruct (IH obs s1 Hpg H) as [Hp' Hl'].
      split; [done | by etrans].
    + destruct (run_tool_total c s) as (? & ? & ?). congruence.
Qed.

Lemma sync_playwright_inv s r s' :
  sync_playwright s = (r, s') →
  calls s' = calls s ++ [OpStart] ∧ script s' = tail (script s) ∧
  page s' = page s ∧ browser s' = browser s ∧ browsers s' = browsers s ∧
  r = match ev_raise (event_at (script s) 0) with
      | Some msg => Exc msg
      | None => Ok ()
      end.
Proof.
  unfold sync_playwright. rewrite next_event_eq. simpl.
  destruct (ev_raise _); intros [= <- <-]; done.
Qed.

Lemma launch_inv s r s' :
  launch s = (r, s') →
  calls s' = calls s ++ [OpLaunch] ∧ script s' = tail (script s) ∧
  page s' = page s ∧ browser s' = browser s ∧
  match ev_raise (event_at (script s) 0) with
  | Some msg => r = Exc msg ∧ browsers s' = browsers s
  | None => r = Ok (length (browsers s)) ∧
            length (browsers s') = S (length (browsers s))
  end.
Proof.
  unfold launch. rewrite next_event_eq. simpl.
  destruct (ev_raise _); intros [= <- <-]; simpl; split_and!; auto.
  rewrite length_app. simpl. lia.
Qed.

Lemma new_context_inv b s r s' :
  new_context b s = (r, s') →
  calls s' = calls s ++ [OpNewContext b] ∧ script s' = tail (script s) ∧
  page s' = page s ∧
  r = match ev_raise (event_at (script s) 0) with
      | Some msg => Exc msg
      | None => Ok b
      end.
Proof.
  unfold new_context, mbind, M_bind.
  destruct (playwright _ _ s) as [rt s1] eqn:E.
  apply playwright_inv in E as (Hc & Hs & Hp & ->).
  destruct (ev_raise _); intros [= <- <-]; done.
Qed.

Lemma new_page_inv ctx s r s' :
  new_page ctx s = (r, s') →
  calls s' = calls s ++ [OpNewPage ctx] ∧ script s' = tail (script s) ∧
  page s' = page s ∧
  r = match ev_raise (event_at (script s) 0) with
      | Some msg => Exc msg
      | None => Ok {| page_browser := ctx |}
      end.
Proof.
  unfold new_page, mbind, M_bind.
  destruct (playwright _ _ s) as [rt s1] eqn:E.
  apply playwright_inv in E as (Hc & Hs & Hp & ->).
  destruct (ev_raise _); intros [= <- <-]; done.
Qed.

Lemma close_browser_calls s r s' :
  close_browser s = (r, s') →
  r = Ok () ∧ page s' = page s ∧
  length (browsers s') = length (browsers s) ∧
  ∃ closing,
    calls s' = calls s ++ closing ∧
    ((closing = [] ∧ browsers s' = browsers s) ∨
     ∃ b, browser s = Some b ∧ closing = [OpClose b]).
Proof.
  unfold close_browser, mbind, M_bind, get_browser, is_connected, close.
  destruct (browser s) as [b|]; simpl.
  - destruct (default false _); intros [= <- <-]; simpl.
    + split_and!; auto; [by rewrite length_insert|].
      exists [OpClose b]. eauto.
    + split_and!; auto. exists []. rewrite app_nil_r. auto.
  - intros [= <- <-]. split_and!; auto. exists []. rewrite app_nil_r. auto.
Qed.

Section TaskRunnerCourse.

Variable agent_executor : json → Agent (res string).

Lemma session_cases b task s r s' :
  (context ← new_context b;
   pg ← new_page context; assign_page pg ;;
   result ← invoke agent_executor task;
   mret {| body := BResult result; status := 200 |}) s = (r, s') →
  (∃ msg, ev_raise (event_at (script s) 0) = Some msg ∧ r = Exc msg ∧
          calls s' = calls s ++ [OpNewContext b] ∧ page s' = page s) ∨
  (∃ msg, ev_raise (event_at (script s) 0) = None ∧
          ev_raise (event_at (script s) 1) = Some msg ∧ r = Exc msg ∧
          calls s' = calls s ++ [OpNewContext b; OpNewPage b] ∧
          page s' = page s) ∨
  (ev_raise (event_at (script s) 0) = None ∧
   ev_raise (event_at (script s) 1) = None ∧
   ∃ s1 out tool_calls,
     page s1 = Some {| page_browser := b |} ∧
     calls s1 = calls s ++ [OpNewContext b; OpNewPage b; OpInvoke task] ∧
     script s1 = drop 2 (script s) ∧
     run_agent (agent_executor task) s1 = (Ok out, s') ∧
     r = match out with
         | Ok output => Ok {| body := BResult output; status := 200 |}
         | Exc msg => Exc msg
         end ∧
     calls s' = calls s1 ++ tool_calls ∧
     forallb (on_page {| page_browser := b |}) tool_calls = true ∧
     page s' = Some {| page_browser := b |}).
Proof.
  unfold mbind at 1, M_bind at 1.
  destruct (new_context b s) as [rc s1] eqn:E1.
  apply new_context_inv in E1 as (Hc1 & Hs1 & Hp1 & ->).
  destruct (ev_raise (event_at (script s) 0)) as [m0|] eqn:Ev0.
  { intros [= <- <-]. left. eauto. }
  unfold mbind at 1, M_bind at 1.
  destruct (new_page b s1) as [rp s2] eqn:E2.
  apply new_page_inv in E2 as (Hc2 & Hs2 & Hp2 & ->).
  rewrite Hs1, event_at_tail in *.
  destruct (ev_raise (event_at (script s) 1)) as [m1|] eqn:Ev1.
  { intros [= <- <-]. right. left. exists m1. split_and!; auto.
    - by rewrite Hc2, Hc1, <- app_assoc.
    - congruence. }
  unfold mbind at 1, M_bind at 1, assign_page at 1.
  unfold mbind at 1, M_bind at 1, invoke at 1.
  set (s3 := record_call (OpInvoke task)
               (set_page (Some {| page_browser := b |}) s2)).
  assert (Hc3 : calls s3 = calls s ++ [OpNewContext b; OpNewPage b; OpInvoke task]).
  { unfold s3. simpl. by rewrite Hc2, Hc1, <- !app_assoc. }
  assert (Hs3 : script s3 = drop 2 (script s)).
  { unfold s3. simpl. rewrite Hs2. by destruct (script s) as [|? [|? ?]]. }
  assert (Hp3 : page s3 = Some {| page_browser := b |}) by done.
  destruct (run_agent (agent_executor task) s3) as [ra s4] eqn:E4.
  destruct (run_agent_total (agent_executor task) s3) as (out & s4' & E4').
  rewrite E4 in E4'. simplify_eq.
  destruct (run_agent_logged _ _ _ _ _ Hp3 E4) as [Hp4 (tc & Hc4 & Ht)].
  intros H. right. right. split_and!; auto.
  exists s3, out, tc.
  destruct out as [o|m]; simpl in H; unfold mret, M_ret in H; simplify_eq;
    split_and!; auto.
Qed.

Lemma run_task_cases task s r s' :
  run_task agent_executor task s = (r, s') →
  (∃ msg, ev_raise (event_at (script s) 0) = Some msg ∧
          r = Ok (respond (Exc msg)) ∧
          calls s' = calls s ++ [OpLaunch] ∧ page s' = page s ∧
          browser s' = browser s ∧ browsers s' = browsers s) ∨
  (browser s' = Some (length (browsers s)) ∧
   length (browsers s') = S (length (browsers s)) ∧
   ev_raise (event_at (script s) 0) = None ∧
   ((∃ msg, ev_raise (event_at (script s) 1) = Some msg ∧
            r = Ok (respond (Exc msg)) ∧
            calls s' = calls s ++ [OpLaunch; OpNewContext (length (browsers s))] ∧
            page s' = page s) ∨
    (∃ msg, ev_raise (event_at (script s) 1) = None ∧
            ev_raise (event_at (script s) 2) = Some msg ∧
            r = Ok (respond (Exc msg)) ∧
            calls s' = calls s ++ [OpLaunch; OpNewContext (length (browsers s));
                                   OpNewPage (length (browsers s))] ∧
            page s' = page s) ∨
    (ev_raise (event_at (script s) 1) = None ∧
     ev_raise (event_at (script s) 2) = None ∧
     ∃ s1 out tool_calls,
       page s1 = Some {| page_browser := length (browsers s) |} ∧
       calls s1 = calls s ++ [OpLaunch; OpNewContext (length (browsers s));
                              OpNewPage (length (browsers s)); OpInvoke task] ∧
       script s1 = drop 3 (script s) ∧
       run_agent (agent_executor task) s1 = (Ok out, s') ∧
       r = Ok (respond out) ∧
       calls s' = calls s1 ++ tool_calls ∧
       forallb (on_page {| page_browser := length (browsers s) |}) tool_calls
         = true ∧
       page s' = Some {| page_browser := length (browsers s) |}))).
Proof.
  unfold run_task, try_except. unfold mbind at 1, M_bind at 1.
  destruct (launch s) as [rl s1] eqn:El.
  apply launch_inv in El as (Hc1 & Hs1 & Hp1 & Hb1 & Hl).
  destruct (ev_raise (event_at (script s) 0)) as [m0|] eqn:Ev0.
  { destruct Hl as [-> Hbs]. intros [= <- <-]. left. exists m0.
    split_and!; auto. }
  destruct Hl as [-> Hlen].
  unfold mbind at 1, M_bind at 1, assign_browser at 1.
  match goal with
  | |- match ?X with _ => _ end = _ → _ => destruct X as [rr s3] eqn:Er
  end.
  pose proof (session_evolves agent_executor _ _ _ _ _ Er)
    as [_ Hloc Hlen3 _ _ _ _].
  apply session_cases in Er. simpl in Er, Hloc, Hlen3. rewrite Hlen in Hlen3.
  rewrite Hs1, !event_at_tail, Hc1, Hp1 in Er.
  destruct Er as [(msg & E1 & -> & Hc & Hp)
               |[(msg & E1 & E2 & -> & Hc & Hp)
                |(E1 & E2 & s2 & out & tc & Hp2 & Hc2 & Hs2 & Hr & -> & Hc & Ht & Hp)]].
  - intros [= <- <-]. right. split_and!; auto. left. exists msg.
    split_and!; auto. by rewrite Hc, <- app_assoc.
  - intros [= <- <-]. right. split_and!; auto. right. left. exists msg.
    split_and!; auto. by rewrite Hc, <- app_assoc.
  - intros H. assert (r = Ok (respond out) ∧ s' = s3) as [-> ->].
    { destruct out; simpl in H; unfold mret, M_ret in H; by simplify_eq. }
    right. split_and!; auto. right. right. split_and!; auto.
    exists s2, out, tc. split_and!; auto.
    + by rewrite Hc2, <- app_assoc.
    + rewrite Hs2. by destruct (script s) as [|? [|? [|? ?]]].
Qed.

Lemma execute_task_cases data s r s' :
  truthy (default JNull (data !! "task")) = true →
  execute_task agent_executor data s = (r, s') →
  (∃ msg, ev_raise (event_at (script s) 0) = Some msg ∧ r = Exc msg ∧
          calls s' = calls s ++ [OpStart] ∧ page s' = page s ∧
          browsers s' = browsers s) ∨
  (ev_raise (event_at (script s) 0) = None ∧
   ∃ closing,
     (closing = [] ∨ closing = [OpClose (length (browsers s))]) ∧
     ((∃ msg, ev_raise (event_at (script s) 1) = Some msg ∧
              r = Ok (respond (Exc msg)) ∧
              calls s' = calls s ++ [OpStart; OpLaunch] ∧
              page s' = page s ∧ browsers s' = browsers s) ∨
      length (browsers s') = S (length (browsers s)) ∧
      ((∃ msg, ev_raise (event_at (script s) 1) = None ∧
              ev_raise (event_at (script s) 2) = Some msg ∧
              r = Ok (respond (Exc msg)) ∧
              calls s' = calls s ++
                [OpStart; OpLaunch; OpNewContext (length (browsers s))]
                ++ closing ∧
              page s' = page s) ∨
      (∃ msg, ev_raise (event_at (script s) 1) = None ∧
              ev_raise (event_at (script s) 2) = None ∧
              ev_raise (event_at (script s) 3) = Some msg ∧
              r = Ok (respond (Exc msg)) ∧
              calls s' = calls s ++
                [OpStart; OpLaunch; OpNewContext (length (browsers s));
                 OpNewPage (length (browsers s))] ++ closing ∧
              page s' = page s) ∨
      (ev_raise (event_at (script s) 1) = None ∧
       ev_raise (event_at (script s) 2) = None ∧
       ev_raise (event_at (script s) 3) = None ∧
       ∃ s1 out s2 tool_calls,
         page s1 = Some {| page_browser := length (browsers s) |} ∧
         calls s1 = calls s ++
           [OpStart; OpLaunch; OpNewContext (length (browsers s));
            OpNewPage (length (browsers s));
            OpInvoke (default JNull (data !! "task"))] ∧
         script s1 = drop 4 (script s) ∧
         run_agent (agent_executor (default JNull (data !! "task"))) s1
           = (Ok out, s2) ∧
         r = Ok (respond out) ∧
         calls s' = calls s1 ++ tool_calls ++ closing ∧
         forallb (on_page {| page_browser := length (browsers s) |}) tool_calls
           = true ∧
         page s' = Some {| page_browser := length (browsers s) |})))).
Proof.
  intros Htask. unfold execute_task, call_frame. rewrite Htask.
  cbn [negb]. cbv beta iota. unfold mbind at 1, M_bind at 1.
  destruct (sync_playwright (set_browser None s)) as [ru s1] eqn:Es.
  apply sync_playwright_inv in Es as (Hc1 & Hs1 & Hp1 & Hl1 & Hb1 & ->).
  simpl in Hc1, Hs1, Hp1, Hl1, Hb1.
  change (script (set_browser None s)) with (script s).
  destruct (ev_raise (event_at (script s) 0)) as [m0|] eqn:Ev0;
    cbv beta iota.
  { intros [= <- <-]. left. exists m0. simpl. split_and!; auto. }
  unfold try_finally.
  destruct (run_task agent_executor _ s1) as [rt s2] eqn:Et.
  apply run_task_cases in Et.
  destruct (close_browser s2) as [rc s3] eqn:Ec.
  apply close_browser_calls in Ec
    as (-> & Hp3 & Hlen3 & closing & Hc3 & Hclosing).
  rewrite Hs1, !event_at_tail, Hb1, Hc1, Hp1 in Et.
  intros [= <- <-]. simpl. right. split; [done|].
  destruct Et as [(msg & E1 & -> & Hc & Hp & Hl & Hb)|(Hl & Hlen2 & Ev1 & Et)].
  - assert (closing = [] ∧ browsers s3 = browsers s2) as [-> Hb3].
    { destruct Hclosing as [?|(b' & Hb' & _)]; [done|]. congruence. }
    exists []. split; [auto|]. left. exists msg. rewrite app_nil_r in Hc3.
    split_and!; auto.
    + by rewrite Hc3, Hc, <- app_assoc.
    + congruence.
    + congruence.
  - exists closing. split.
    { destruct Hclosing as [[-> _]|(b' & Hb' & ->)]; [auto|]. right.
      congruence. }
    right. split; [congruence|].
    destruct Et as [(msg & E1 & -> & Hc & Hp)
                 |[(msg & E1 & E2 & -> & Hc & Hp)
                  |(E1 & E2 & s4 & out & tc & Hp4 & Hc4 & Hs4 & Hr & -> & Hc & Ht & Hp)]].
    + left. exists msg. split_and!; auto; try congruence.
      by rewrite Hc3, Hc, <- !app_assoc.
    + right. left. exists msg. split_and!; auto; try congruence.
      by rewrite Hc3, Hc, <- !app_assoc.
    + right. right. split_and!; auto.
      exists s4, out, s2, tc. split_and!; auto.
      * by rewrite Hc4, <- app_assoc.
      * rewrite Hs4. by destruct (script s) as [|? [|? [|? [|? ?]]]].
      * by rewrite Hc3, Hc, <- app_assoc.
      * congruence.
Qed.

End TaskRunnerCourse.

Lemma invoke_calls_app l1 l2 :
  invoke_calls (l1 ++ l2) = invoke_calls l1 + invoke_calls l2.
Proof.
  induction l1 as [|o l1 IH]; simpl; [done|]. destruct o; simpl; lia.
Qed.

Lemma invoke_calls_on_page pg l :
  forallb (on_page pg) l = true → invoke_calls l = 0.
Proof.
  induction l as [|o l IH]; simpl; [done|].
  intros H. apply andb_true_iff in H as [Ho Hl].
  destruct o; simpl in *; auto; discriminate.
Qed.

Lemma on_page_on_browser b l :
  forallb (on_page {| page_browser := b |}) l = true →
  forallb (on_browser b) l = true.
Proof.
  induction l as [|o l IH]; simpl; [done|].
  intros H. apply andb_true_iff in H as [Ho Hl]. rewrite (IH Hl), andb_true_r.
  unfold on_page in Ho. apply andb_true_iff in Ho as [_ Ho].
  apply bool_decide_eq_true_1 in Ho. unfold on_browser. rewrite Ho.
  by apply bool_decide_eq_true_2.
Qed.

(** ** The entry point: what each failure and the success lead to *)

(** X5: when entering [sync_playwright()] raises, the exception leaves
    [execute_task] (the [with] statement is outside the [try]): no response
    is made, no browser is launched and the global [page] is unchanged. *)
Theorem playwright_start_failure_propagates
    (agent_executor : json → Agent (res string)) (data : gmap string json)
    (s : State) (msg : string) :
  truthy (default JNull (data !! "task")) = true →
  ev_raise (event_at (script s) 0) = Some msg →
  ∃ s',
    execute_task agent_executor data s = (Exc msg, s') ∧
    calls s' = calls s ++ [OpStart] ∧
    page s' = page s ∧ browsers s' = browsers s.
Proof.
  intros Htask H0.
  destruct (execute_task agent_executor data s) as [r s'] eqn:E.
  apply (execute_task_cases _ _ _ _ _ Htask) in E
    as [(msg' & H0' & -> & Hc & Hp & Hb)|(H0' & _)]; [|congruence].
  rewrite H0 in H0'. simplify_eq. eauto.
Qed.

Lemma playwright_start_failure_propagates_witness :
  ∃ s',
    execute_task answer_at_once {[ "task" := JStr "go" ]}
      (boot [raises "Playwright driver not found"])
    = (Exc "Playwright driver not found", s') ∧
    calls s' = [OpStart].
Proof.
  assert (Htask :
    truthy (default JNull (({[ "task" := JStr "go" ]} : gmap string json)
                             !! "task")) = true) by reflexivity.
  destruct (playwright_start_failure_propagates answer_at_once
              {[ "task" := JStr "go" ]}
              (boot [raises "Playwright driver not found"])
              "Playwright driver not found" Htask eq_refl)
    as (s' & Hr & Hc & _).
  exists s'. split; [exact Hr | exact Hc].
Defined.

(** X6: when the launch of the browser raises, [execute_task] answers with
    the message of the exception and status 500; the executor is not
    invoked, [close()] is not called (there is no [browser] in [locals()]),
    no browser is added and the global [page] is unchanged. *)
Theorem launch_failure_is_reported
    (agent_executor : json → Agent (res string)) (data : gmap string json)
    (s : State) (msg : string) :
  truthy (default JNull (data !! "task")) = true →
  ev_raise (event_at (script s) 0) = None →
  ev_raise (event_at (script s) 1) = Some msg →
  ∃ s',
    execute_task agent_executor data s
      = (Ok {| body := BError msg; status := 500 |}, s') ∧
    calls s' = calls s ++ [OpStart; OpLaunch] ∧
    page s' = page s ∧ browsers s' = browsers s.
Proof.
  intros Htask H0 H1.
  destruct (execute_task agent_executor data s) as [r s'] eqn:E.
  apply (execute_task_cases _ _ _ _ _ Htask) in E
    as [(? & ? & _)|(_ & closing & _ & E)]; [congruence|].
  destruct E as [(msg' & H1' & -> & Hc & Hp & Hb)|(_ & E)].
  - rewrite H1 in H1'. simplify_eq. eauto.
  - destruct E as [(? & ? & _)|[(? & ? & _)|(? & _)]]; congruence.
Qed.

Lemma launch_failure_is_reported_witness :
  ∃ s',
    execute_task answer_at_once {[ "task" := JStr "go" ]}
      (boot [returns ""; raises "Executable doesn't exist"])
    = (Ok {| body := BError "Executable doesn't exist"; status := 500 |}, s') ∧
    calls s' = [OpStart; OpLaunch].
Proof.
  assert (Htask :
    truthy (default JNull (({[ "task" := JStr "go" ]} : gmap string json)
                             !! "task")) = true) by reflexivity.
  destruct (launch_failure_is_reported answer_at_once
              {[ "task" := JStr "go" ]}
              (boot [returns ""; raises "Executable doesn't exist"])
              "Executable doesn't exist" Htask eq_refl eq_refl)
    as (s' & Hr & Hc & _).
  exists s'. split; [exact Hr | exact Hc].
Defined.

(** X7: when the browser was launched and opening its context or its page
    raises, [execute_task] answers with the message of the exception and
    status 500; the executor is not invoked, the global [page] is unchanged
    (it is only assigned after [new_page()] returned), and the browser that
    was launched is not connected when [execute_task] returns. *)
Theorem session_setup_failure_is_reported
    (agent_executor : json → Agent (res string)) (data : gmap string json)
    (s : State) (msg : string) :
  truthy (default JNull (data !! "task")) = true →
  ev_raise (event_at (script s) 0) = None →
  ev_raise (event_at (script s) 1) = None →
  ev_raise (event_at (script s) 2) = Some msg ∨
  (ev_raise (event_at (script s) 2) = None ∧
   ev_raise (event_at (script s) 3) = Some msg) →
  ∃ s',
    execute_task agent_executor data s
      = (Ok {| body := BError msg; status := 500 |}, s') ∧
    invoke_calls (calls s') = invoke_calls (calls s) ∧
    page s' = page s ∧
    length (browsers s') = S (length (browsers s)) ∧
    browsers s' !! length (browsers s) = Some false.
Proof.
  intros Htask H0 H1 H23.
  destruct (execute_task agent_executor data s) as [r s'] eqn:E.
  pose proof (execute_task_spec agent_executor data s r s' E)
    as (_ & _ & Hspec).
  apply (execute_task_cases _ _ _ _ _ Htask) in E
    as [(? & ? & _)|(_ & closing & Hcl & E)]; [congruence|].
  destruct E as [(? & ? & _)|(Hlen & E)]; [congruence|].
  destruct Hspec as [(Hsame & _)|(_ & Hb & _)]; [lia|].
  assert (Hclosing : invoke_calls closing = 0) by (by destruct Hcl as [->| ->]).
  destruct E as [(msg' & _ & H2 & -> & Hc & Hp)
              |[(msg' & _ & H2 & H3 & -> & Hc & Hp)|(_ & H2 & H3 & _)]].
  - destruct H23 as [H2'|[H2' _]]; [|congruence].
    rewrite H2 in H2'. simplify_eq. exists s'. split_and!; auto.
    rewrite Hc, !invoke_calls_app, Hclosing. simpl. lia.
  - destruct H23 as [H2'|[_ H3']]; [congruence|].
    rewrite H3 in H3'. simplify_eq. exists s'. split_and!; auto.
    rewrite Hc, !invoke_calls_app, Hclosing. simpl. lia.
  - destruct H23 as [?|[_ ?]]; congruence.
Qed.

Lemma session_setup_failure_is_reported_witness :
  ∃ s',
    execute_task answer_at_once {[ "task" := JStr "go" ]}
      (boot [returns ""; returns ""; returns ""; raises "Target closed"])
    = (Ok {| body := BError "Target closed"; status := 500 |}, s') ∧
    page s' = None ∧ browsers s' !! 0 = Some false.
Proof.
  assert (Htask :
    truthy (default JNull (({[ "task" := JStr "go" ]} : gmap string json)
                             !! "task")) = true) by reflexivity.
  destruct (session_setup_failure_is_reported answer_at_once
              {[ "task" := JStr "go" ]}
              (boot [returns ""; returns ""; returns ""; raises "Target closed"])
              "Target closed" Htask eq_refl eq_refl
              (or_intror (conj eq_refl eq_refl)))
    as (s' & Hr & _ & Hp & _ & Hb).
  exists s'. split_and!; [exact Hr | exact Hp | exact Hb].
Defined.

(** X8: when Playwright starts and the browser, its context and its page are
    created, the executor is invoked exactly once, with the task of the
    request, after the global [page] has been set to the page of the browser
    just launched; every call made during its run is a call on that page;
    [execute_task] answers with status 200 and the executor's output, or with
    status 500 and the message when the executor raises; afterwards at most
    a [close()] of that browser follows, and the global [page] still refers
    to that page. *)
Theorem task_runs_on_fresh_page
    (agent_executor : json → Agent (res string)) (data : gmap string json)
    (s : State) :
  truthy (default JNull (data !! "task")) = true →
  (∀ n, n < 4 → ev_raise (event_at (script s) n) = None) →
  ∃ s1 out s2 tool_calls closing s',
    page s1 = Some {| page_browser := length (browsers s) |} ∧
    calls s1 = calls s ++
      [OpStart; OpLaunch; OpNewContext (length (browsers s));
       OpNewPage (length (browsers s));
       OpInvoke (default JNull (data !! "task"))] ∧
    run_agent (agent_executor (default JNull (data !! "task"))) s1
      = (Ok out, s2) ∧
    execute_task agent_executor data s = (Ok (respond out), s') ∧
    calls s' = calls s1 ++ tool_calls ++ closing ∧
    forallb (on_page {| page_browser := length (browsers s) |}) tool_calls
      = true ∧
    (closing = [] ∨ closing = [OpClose (length (browsers s))]) ∧
    invoke_calls (calls s') = S (invoke_calls (calls s)) ∧
    page s' = Some {| page_browser := length (browsers s) |}.
Proof.
  intros Htask Hq.
  destruct (execute_task agent_executor data s) as [r s'] eqn:E.
  apply (execute_task_cases _ _ _ _ _ Htask) in E
    as [(? & H0 & _)|(_ & closing & Hcl & E)].
  { rewrite Hq in H0 by lia. discriminate H0. }
  destruct E as [(? & H1 & _)|(_ & E)].
  { rewrite Hq in H1 by lia. discriminate H1. }
  destruct E as [(? & _ & H2 & _)
              |[(? & _ & _ & H3 & _)
               |(_ & _ & _ & s1 & out & s2 & tc & Hp1 & Hc1 & _ & Hr & -> & Hc & Ht & Hp)]].
  { rewrite Hq in H2 by lia. discriminate H2. }
  { rewrite Hq in H3 by lia. discriminate H3. }
  exists s1, out, s2, tc, closing, s'. split_and!; auto.
  rewrite Hc, Hc1, !invoke_calls_app, (invoke_calls_on_page _ _ Ht).
  destruct Hcl as [->| ->]; simpl; lia.
Qed.

Lemma task_runs_on_fresh_page_witness :
  ∃ s',
    execute_task answer_at_once {[ "task" := JStr "go" ]} (boot [])
      = (Ok {| body := BResult "done"; status := 200 |}, s') ∧
    page s' = Some {| page_browser := 0 |}.
Proof.
  assert (Htask :
    truthy (default JNull (({[ "task" := JStr "go" ]} : gmap string json)
                             !! "task")) = true) by reflexivity.
  destruct (task_runs_on_fresh_page answer_at_once
              {[ "task" := JStr "go" ]} (boot []) Htask)
    as (s1 & out & s2 & tc & closing & s' & _ & _ & Hrun & Hr & _ & _ & _ & _ & Hp).
  { intros n _. by destruct n as [|[|[|[|n]]]]. }
  injection Hrun as <- _. exists s'. split; [exact Hr | exact Hp].
Defined.

(** X9: whatever the request and whatever the executor does, every call
    [execute_task] makes on a browser -- opening the context and the page,
    the calls of the tools, [close()] -- is a call on the browser launched
    for this request, never on a browser of an earlier request. *)
Theorem task_calls_confined_to_its_browser
    (agent_executor : json → Agent (res string)) (data : gmap string json)
    (s : State) :
  ∃ new,
    calls (execute_task agent_executor data s).2 = calls s ++ new ∧
    forallb (on_browser (length (browsers s))) new = true.
Proof.
  destruct (truthy (default JNull (data !! "task"))) eqn:Htask.
  2:{ exists []. split; [|done]. unfold execute_task, call_frame.
      rewrite Htask. simpl. by rewrite app_nil_r. }
  destruct (execute_task agent_executor data s) as [r s'] eqn:E. simpl.
  assert (Hself : bool_decide (length (browsers s) = length (browsers s)) = true)
    by (by apply bool_decide_eq_true_2).
  apply (execute_task_cases _ _ _ _ _ Htask) in E
    as [(? & _ & _ & Hc & _)|(_ & closing & Hcl & E)].
  { eexists. split; [exact Hc | done]. }
  assert (Hclosing : forallb (on_browser (length (browsers s))) closing = true).
  { destruct Hcl as [->| ->]; simpl; [done|]. unfold on_browser. simpl.
    by rewrite Hself. }
  destruct E as [(? & _ & _ & Hc & _)|(_ & E)].
  { eexists. split; [exact Hc | done]. }
  destruct E as [(? & _ & _ & _ & Hc & _)
              |[(? & _ & _ & _ & _ & Hc & _)
               |(_ & _ & _ & s1 & out & s2 & tc & _ & Hc1 & _ & _ & _ & Hc & Ht & _)]].
  - eexists. split; [exact Hc|]. rewrite forallb_app, Hclosing.
    unfold on_browser. simpl. by rewrite Hself.
  - eexists. split; [exact Hc|]. rewrite forallb_app, Hclosing.
    unfold on_browser. simpl. by rewrite Hself.
  - eexists. split; [rewrite Hc, Hc1, <- app_assoc; reflexivity|].
    rewrite !forallb_app, Hclosing, (on_page_on_browser _ _ Ht).
    unfold on_browser. simpl. by rewrite Hself.
Qed.

Lemma execute_task_all_closed agent_executor data s :
  Forall (λ up, up = false) (browsers s) →
  Forall (λ up, up = false) (browsers (execute_task agent_executor data s).2) ∧
  length (browsers (execute_task agent_executor data s).2)
    ≤ S (length (browsers s)).
Proof.
  intros Hs. destruct (execute_task agent_executor data s) as [r s'] eqn:E.
  apply execute_task_spec in E as (_ & Hcl & Hcase). simpl.
  assert (Hold : ∀ i, i < length (browsers s) → browsers s' !! i = Some false).
  { intros i Hi. destruct (lookup_lt_is_Some_2 _ _ Hi) as [up Hup].
    apply Hcl. rewrite Hup. f_equal.
    by apply (proj1 (Forall_lookup _ _) Hs i). }
  destruct Hcase as [(Hlen & _)|(Hlen & Hb & _)].
  - split; [|lia]. apply Forall_lookup. intros i up Hi.
    pose proof (lookup_lt_Some _ _ _ Hi) as Hlt.
    rewrite Hold in Hi by lia. congruence.
  - split; [|lia]. apply Forall_lookup. intros i up Hi.
    pose proof (lookup_lt_Some _ _ _ Hi) as Hlt.
    destruct (decide (i = length (browsers s))) as [->|Hne].
    + congruence.
    + rewrite Hold in Hi by lia. congruence.
Qed.

Lemma serve_all_closed reqs s :
  Forall (λ up, up = false) (browsers s) →
  Forall (λ up, up = false) (browsers (serve reqs s)) ∧
  length (browsers (serve reqs s)) ≤ length (browsers s) + length reqs.
Proof.
  revert s. induction reqs as [|[agent_executor data] reqs IH]; intros s Hs.
  - simpl. split; [done|lia].
  - simpl. destruct (execute_task_all_closed agent_executor data s Hs)
      as [Hs' Hlen].
    destruct (IH _ Hs') as [Hall Hlen']. split; [done|lia].
Qed.

(** X10: between requests no browser is left connected: after any sequence
    of requests served from the start of the server, every browser that was
    launched is disconnected, and at most one browser was launched per
    request. *)
Theorem no_browser_left_connected
    (reqs : list ((json → Agent (res string)) * gmap string json))
    (sc : list Event) :
  Forall (λ up, up = false) (browsers (serve reqs (boot sc))) ∧
  length (browsers (serve reqs (boot sc))) ≤ length reqs.
Proof.
  destruct (serve_all_closed reqs (boot sc)) as [Hall Hlen]; [by constructor|].
  split; [done|]. simpl in Hlen. lia.
Qed.

(** X11: the answer "No task provided" with status 400 is given exactly for
    a task that Python takes for false: a missing key or null, the empty
    string, [false], the number 0, an empty list or an empty object.  Then
    the state is left as it was; for any other task the status of a response
    is not 400. *)
Theorem only_falsy_task_gets_400
    (agent_executor : json → Agent (res string)) (data : gmap string json)
    (s : State) :
  (truthy (default JNull (data !! "task")) = false →
   execute_task agent_executor data s
     = (Ok {| body := BError "No task provided"; status := 400 |}, s)) ∧
  (∀ resp s',
     execute_task agent_executor data s = (Ok resp, s') →
     status resp = 400 →
     truthy (default JNull (data !! "task")) = false).
Proof.
  split.
  - intros Htask. unfold execute_task, call_frame. rewrite Htask. simpl.
    by destruct s.
  - intros resp s' E Hst.
    destruct (truthy (default JNull (data !! "task"))) eqn:Htask; [|done].
    apply (execute_task_cases _ _ _ _ _ Htask) in E
      as [(? & _ & ? & _)|(_ & closing & _ & E)]; [done|].
    assert (Hresp : ∃ out, resp = respond out).
    { destruct E as [(? & _ & ? & _)|(_ & E)]; [simplify_eq; eauto|].
      destruct E as [(? & _ & _ & ? & _)
                  |[(? & _ & _ & _ & ? & _)
                   |(_ & _ & _ & ? & out & ? & ? & _ & _ & _ & _ & ? & _)]];
        simplify_eq; eauto. }
    destruct Hresp as [[o|m] ->]; discriminate Hst.
Qed.

(** * The browser at the end of a task *)

(** ** The events a piece of code lets the outside world play *)

Lemma calm_app l1 l2 : calm (l1 ++ l2) = calm l1 && calm l2.
Proof. apply forallb_app. Qed.

Global Instance consumes_preorder : PreOrder consumes.
Proof.
  split.
  - intros s. by exists [].
  - intros s1 s2 s3 (u1 & H1 & B1) (u2 & H2 & B2). exists (u1 ++ u2). split.
    + by rewrite H1, H2, app_assoc.
    + rewrite calm_app. intros H. apply andb_true_iff in H as [C1 C2].
      by rewrite (B2 C2), (B1 C1).
Qed.

Lemma take_tail {A} (l : list A) : take 1 l ++ tail l = l.
Proof. by destruct l. Qed.

Lemma calm_first sc :
  calm (take 1 sc) = true → ev_crash (event_at sc 0) = false.
Proof.
  destruct sc as [|e sc]; simpl; [done|].
  rewrite andb_true_r. apply negb_true_iff.
Qed.

Lemma playwright_consumes o b : preserves consumes (playwright o b).
Proof.
  intros s r s'. unfold playwright. rewrite next_event_eq. simpl.
  intros H. exists (take 1 (script s)).
  assert (Hs : script s' = tail (script s) ∧
               (ev_crash (event_at (script s) 0) = false →
                browsers s' = browsers s)).
  { destruct (ev_crash _), (ev_raise _); simplify_eq; simpl; split; done. }
  destruct Hs as [-> Hb]. split; [by rewrite take_tail|].
  intros Hc. by apply Hb, calm_first.
Qed.

Lemma sync_playwright_consumes : preserves consumes sync_playwright.
Proof.
  intros s r s' H. apply sync_playwright_inv in H as (_ & Hs & _ & _ & Hb & _).
  exists (take 1 (script s)). rewrite Hs. split; [by rewrite take_tail|done].
Qed.

Lemma tool_try_consumes c pg : preserves consumes (tool_try c pg).
Proof.
  destruct c; simpl;
    unfold google_search_try, navigate_to_url_try, type_text_try,
      click_element_try, read_current_page_content_try,
      goto, fill, press, click, wait_for_load_state, inner_text;
    repeat first
      [ apply preserves_ret; apply _
      | apply preserves_bind; [apply _ | | intros ?]
      | apply playwright_consumes ].
Qed.

Lemma run_tool_consumes c : preserves consumes (run_tool c).
Proof.
  intros s r s'. destruct (page s) as [pg|] eqn:Hp.
  - rewrite (run_tool_active c pg s Hp).
    apply preserves_try_except; [apply _ | apply tool_try_consumes |].
    intros e. apply preserves_ret, _.
  - rewrite (run_tool_guarded c s Hp). intros [= <- <-]. reflexivity.
Qed.

Lemma run_agent_consumes {R} (a : Agent R) : preserves consumes (run_agent a).
Proof.
  induction a as [r|c k IH]; simpl.
  - apply preserves_ret, _.
  - apply preserves_bind; [apply _ | apply run_tool_consumes | exact IH].
Qed.

Lemma launch_consumes s b s' :
  launch s = (Ok b, s') →
  ∃ used, script s = used ++ script s' ∧
          (calm used = true → browsers s' = browsers s ++ [true]).
Proof.
  unfold launch. rewrite next_event_eq. simpl.
  destruct (ev_raise _); [done|]. intros [= <- <-]. simpl.
  exists (take 1 (script s)). split; [by rewrite take_tail|].
  intros Hc. by rewrite (calm_first _ Hc).
Qed.

Lemma close_browser_script s : script (close_browser s).2 = script s.
Proof.
  unfold close_browser, mbind, M_bind, get_browser, is_connected, close.
  destruct (browser s) as [b|]; simpl; [|done].
  by destruct (default false _).
Qed.

Section TaskRunnerEnd.

Variable agent_executor : json → Agent (res string).

Lemma invoke_consumes task : preserves consumes (invoke agent_executor task).
Proof.
  intros s r s'. unfold invoke.
  destruct (run_agent _ _) as [ra s1] eqn:E.
  apply run_agent_consumes in E. simpl in E.
  destruct ra as [[out|msg]|msg]; intros [= <- <-]; exact E.
Qed.

Lemma assign_page_consumes pg : preserves consumes (assign_page pg).
Proof. intros s r s' [= <- <-]. by exists []. Qed.

Lemma session_consumes b task :
  preserves consumes
    (context ← new_context b;
     pg ← new_page context; assign_page pg ;;
     result ← invoke agent_executor task;
     mret {| body := BResult result; status := 200 |}).
Proof.
  unfold new_context, new_page.
  repeat first
    [ apply preserves_ret; apply _
    | apply invoke_consumes
    | apply playwright_consumes
    | apply assign_page_consumes
    | apply preserves_bind; [apply _ | | intros ?] ].
Qed.

Lemma run_task_consumes task s r s' :
  run_task agent_executor task s = (r, s') →
  length (browsers s') = S (length (browsers s)) →
  ∃ used, script s = used ++ script s' ∧
          (calm used = true → browsers s' = browsers s ++ [true]).
Proof.
  unfold run_task, try_except. unfold mbind at 1, M_bind at 1.
  destruct (launch s) as [[b|msg] s1] eqn:El.
  - apply launch_consumes in El as (u1 & H1 & B1).
    unfold mbind at 1, M_bind at 1, assign_browser at 1.
    match goal with
    | |- match ?X with _ => _ end = _ → _ => destruct X as [rr s3] eqn:Er
    end.
    apply session_consumes in Er as (u2 & H2 & B2). simpl in H2, B2.
    assert (Hend : s' = s3 → ∃ used, script s = used ++ script s' ∧
              (calm used = true → browsers s' = browsers s ++ [true])).
    { intros ->. exists (u1 ++ u2). split; [by rewrite H1, H2, app_assoc|].
      rewrite calm_app. intros H. apply andb_true_iff in H as [C1 C2].
      by rewrite (B2 C2), (B1 C1). }
    destruct rr; intros [= <- <-] _; by apply Hend.
  - apply launch_inv in El as (_ & _ & _ & _ & Hl).
    destruct (ev_raise _); [|by destruct Hl].
    destruct Hl as [_ Hb]. intros [= <- <-]. rewrite Hb. lia.
Qed.

Lemma execute_task_finally data s r s' :
  execute_task agent_executor data s = (r, s') →
  length (browsers s') = S (length (browsers s)) →
  s' = set_browser (browser s)
         (close_browser (finally_entry agent_executor data s)).2 ∧
  browser (finally_entry agent_executor data s) = Some (length (browsers s)) ∧
  length (browsers (finally_entry agent_executor data s))
    = S (length (browsers s)) ∧
  (∀ b', close_calls b' (calls (finally_entry agent_executor data s))
         = close_calls b' (calls s)) ∧
  ∃ played,
    script s = played ++ script (finally_entry agent_executor data s) ∧
    (calm played = true →
     browsers (finally_entry agent_executor data s) !! length (browsers s)
       = Some true).
Proof.
  intros H Hlen. revert H. unfold execute_task, call_frame, finally_entry.
  destruct (negb (truthy _)).
  { intros [= <- <-]. simpl in Hlen. lia. }
  unfold mbind, M_bind.
  destruct (sync_playwright (set_browser None s)) as [ru s1] eqn:Es.
  pose proof (sync_playwright_consumes _ _ _ Es) as (u0 & H0 & B0).
  apply sync_playwright_inv in Es as (Hc1 & _ & _ & Hl1 & Hb1 & _).
  simpl in H0, B0, Hc1, Hl1, Hb1.
  destruct ru as [[]|msg].
  2:{ intros [= <- <-]. simpl in Hlen. rewrite Hb1 in Hlen. lia. }
  unfold try_finally.
  destruct (run_task agent_executor _ s1) as [rt s2] eqn:Et. simpl.
  pose proof (run_task_spec agent_executor _ _ _ _ Et Hl1)
    as (_ & Hc & _ & Hcase).
  destruct (close_browser s2) as [rc s3] eqn:Ec.
  pose proof (close_browser_calls _ _ _ Ec) as (-> & _ & Hlen3 & _).
  intros [= <- <-]. simpl in Hlen. rewrite Hlen3 in Hlen.
  destruct Hcase as [(_ & Hb2 & _)|(Hl2 & Hlen2 & _ & _)].
  { rewrite Hb2, Hb1 in Hlen. lia. }
  rewrite Hb1 in Hl2, Hlen2. split_and!; auto.
  - intros b'. rewrite Hc, Hc1, close_calls_app. simpl. lia.
  - apply run_task_consumes in Et as (u1 & H1 & B1); [|by rewrite Hb1].
    exists (u0 ++ u1). split; [by rewrite H0, H1, app_assoc|].
    rewrite calm_app. intros H. apply andb_true_iff in H as [C0 C1].
    rewrite (B1 C1), Hb1.
    by rewrite lookup_app_r, Nat.sub_diag by lia.
Qed.

End TaskRunnerEnd.

(** C2, amended: in every execution of [execute_task] that launched a
    browser, whichever way it ends, that browser is not connected when
    [execute_task] returns and [close()] is called on no other browser.
    The state [execute_task] returns in is the one its [finally] block
    leaves, and the block calls [close()] on the browser exactly once when
    the browser is still connected as the block starts, and not at all when
    it is not connected any more.  So [close()] is called at most once, and
    exactly once whenever no browser died in the events played during the
    task. *)
Theorem browser_closed_at_most_once
    (agent_executor : json → Agent (res string)) (data : gmap string json)
    (s : State) (r : res Response) (s' : State) :
  execute_task agent_executor data s = (r, s') →
  length (browsers s') = S (length (browsers s)) →
  browsers s' !! length (browsers s) = Some false ∧
  (∀ b', b' ≠ length (browsers s) →
         close_calls b' (calls s') = close_calls b' (calls s)) ∧
  close_calls (length (browsers s)) (calls s')
    ≤ close_calls (length (browsers s)) (calls s) + 1 ∧
  (calm (script s) = true →
   close_calls (length (browsers s)) (calls s')
     = close_calls (length (browsers s)) (calls s) + 1) ∧
  s' = set_browser (browser s)
         (close_browser (finally_entry agent_executor data s)).2 ∧
  (default false
     (browsers (finally_entry agent_executor data s) !! length (browsers s))
     = true →
   close_calls (length (browsers s)) (calls s')
     = close_calls (length (browsers s)) (calls s) + 1) ∧
  (default false
     (browsers (finally_entry agent_executor data s) !! length (browsers s))
     = false →
   close_calls (length (browsers s)) (calls s')
     = close_calls (length (browsers s)) (calls s)) ∧
  (∃ played,
     script s = played ++ script s' ∧
     (calm played = true →
      close_calls (length (browsers s)) (calls s')
        = close_calls (length (browsers s)) (calls s) + 1)).
Proof.
  intros H Hlen.
  destruct (execute_task_finally agent_executor data s r s' H Hlen)
    as (Hs' & Hloc & Hfl & Hfc & played & Hplayed & Hup).
  apply execute_task_spec in H as (_ & _ & [(Hsame & _)|Hnew]); [lia|].
  destruct Hnew as (_ & Hb & _ & Hne & Hle & Heq).
  destruct (close_browser_spec _ _ Hloc)
    as (s3 & Ec & _ & _ & _ & _ & _ & _ & Hcount); [lia|].
  assert (Hcalls : close_calls (length (browsers s)) (calls s') =
            close_calls (length (browsers s)) (calls s) +
            (if default false
                  (browsers (finally_entry agent_executor data s)
                     !! length (browsers s))
             then 1 else 0)).
  { rewrite Hs', Ec. simpl. by rewrite Hcount, Hfc. }
  split_and!; auto.
  - intros Hc. rewrite Hcalls, Hc. done.
  - intros Hc. rewrite Hcalls, Hc. lia.
  - exists played. split.
    + rewrite Hplayed, Hs'. simpl. by rewrite close_browser_script.
    + intros Hc. rewrite Hcalls, (Hup Hc). done.
Qed.

Lemma browser_closed_at_most_once_witness :
  (browsers (execute_task answer_at_once {[ "task" := JStr "go" ]}
               (boot [])).2 !! 0 = Some false ∧
   close_calls 0 (calls (execute_task answer_at_once {[ "task" := JStr "go" ]}
                           (boot [])).2) = 1) ∧
  close_calls 0
    (calls (execute_task click_then_answer {[ "task" := JStr "buy it" ]}
              (boot [returns ""; returns ""; returns ""; returns "";
                     dies "Target page, context or browser has been closed"])).2)
    = 0.
Proof.
  split.
  - assert (Hlen :
      length (browsers (execute_task answer_at_once {[ "task" := JStr "go" ]}
                          (boot [])).2) = S (length (browsers (boot []))))
      by reflexivity.
    destruct (browser_closed_at_most_once answer_at_once
                {[ "task" := JStr "go" ]} (boot []) _ _
                (surjective_pairing _) Hlen)
      as (Hb & _ & _ & Heq & _).
    split; [exact Hb | exact (Heq eq_refl)].
  - assert (Hlen :
      length (browsers
                (execute_task click_then_answer {[ "task" := JStr "buy it" ]}
                   (boot [returns ""; returns ""; returns ""; returns "";
                          dies "Target page, context or browser has been closed"])).2)
      = S (length (browsers
                     (boot [returns ""; returns ""; returns ""; returns "";
                            dies "Target page, context or browser has been closed"]))))
      by reflexivity.
    destruct (browser_closed_at_most_once click_then_answer
                {[ "task" := JStr "buy it" ]}
                (boot [returns ""; returns ""; returns ""; returns "";
                       dies "Target page, context or browser has been closed"])
                _ _ (surjective_pairing _) Hlen)
      as (_ & _ & _ & _ & _ & _ & Hnone & _).
    apply Hnone. reflexivity.
Defined.

(** * The loop at its iteration limit *)

Section IterationLimit.

Variable oracle : json → list HistoryStep → string.
Variable parse : string → Parsed.
Variable max_iterations : nat.
Variable max_parse_retries : nat.
Variable hand_over : LoopError → res string.



End IterationLimit.


